(** * X profile post scraper: the content script's core, embedded in Rocq

    The development follows [XProfileScraper] (the content script) function
    by function: hashing and identity, per-pass extraction and admission,
    the scroll loop, the finalizer (deduplication, ordering, statistics),
    the engagement-count parser and the timestamp resolver.  Around it
    stand the checks and helpers of the other files that the scraper's
    data passes through: the address checks of the popup and of the
    background service, the popup's engagement total, the selector
    fallbacks and the hash of [SelectorUtils], and the log of
    [ErrorHandler].

    Conventions.
    - A JavaScript string is a [string]; each [ascii] stands for one code
      unit and [charCodeAt] is [N_of_ascii], so the strings covered are
      those whose code units are below 256.
    - Integers that the code keeps inside the exact range of a double
      (sizes, counters, time values) are [Z].
    - Numbers produced by [parseFloat], [parseInt] and [Math.floor] are
      binary64 values, [spec_float] at precision 53 and [emax] 1024.
    - The JavaScript [Set] of strings is a [gset string]; the [Map] of
      posts, whose iteration order is insertion order, is an association
      list. *)

From Stdlib Require Import ZArith String Ascii List Lia Bool DecimalString.
From Stdlib Require Import Floats.SpecFloat.
From stdpp Require Import base list gmap strings sorting.

Local Open Scope string_scope.
Local Open Scope Z_scope.

(** ** Strings *)

Module JsString.

Definition charCode (c : ascii) : Z := Z.of_N (N_of_ascii c).

Fixpoint charCodes (s : string) : list Z :=
  match s with
  | EmptyString => []
  | String c s' => charCode c :: charCodes s'
  end.

(** [s.startsWith(p)] *)
Fixpoint startsWith (p s : string) : bool :=
  match p, s with
  | EmptyString, _ => true
  | String a p', String b s' => if Ascii.eqb a b then startsWith p' s' else false
  | String _ _, EmptyString => false
  end.

(** [s.includes(p)] *)
Fixpoint includes (p s : string) : bool :=
  startsWith p s ||
  match s with
  | EmptyString => false
  | String _ s' => includes p s'
  end.

(** Truthiness of a string: non-empty. *)
Definition truthy (s : string) : bool :=
  match s with EmptyString => false | _ => true end.

(** [Number.prototype.toString] on a non-negative integer. *)
Definition ofNat (z : Z) : string := NilZero.string_of_uint (N.to_uint (Z.to_N z)).

End JsString.

(** ** [simpleHash] *)

(** [ToInt32]: wrap into the signed 32-bit range. *)
Definition toInt32 (z : Z) : Z := (z + 2 ^ 31) mod 2 ^ 32 - 2 ^ 31.

(** One turn of the loop body:
    [hash = (hash << 5) - hash + char; hash = hash & hash]. *)
Definition hashStep (hash char : Z) : Z :=
  toInt32 (toInt32 (Z.shiftl hash 5) - hash + char).

Definition simpleHash (str : string) : string :=
  JsString.ofNat (Z.abs (fold_left hashStep (JsString.charCodes str) 0)).

(** ** Post records *)

Inductive MediaType := image | video.

Record Media := {
  media_type : MediaType;
  media_url : string;
  media_alt : string   (* [alt] for an image, [poster] for a video *)
}.

Record Metadata := {
  isRetweet : bool;
  isReply : bool;
  hasThread : bool;
  language : string;
  verified : bool
}.

Record Metrics := {
  replies : spec_float;
  retweets : spec_float;
  likes : spec_float;
  views : spec_float
}.

Record Post := {
  id : string;
  order : Z;
  text : string;
  author : string;
  timestamp : string;
  url : string;
  metrics : Metrics;
  media : list Media;
  metadata : Metadata;
  scrapedAt : Z;
  scrollPosition : Z;
  finalOrder : option Z   (* [None]: the property is not set yet *)
}.

Definition setFinalOrder (n : Z) (p : Post) : Post :=
  {| id := id p; order := order p; text := text p; author := author p;
     timestamp := timestamp p; url := url p; metrics := metrics p;
     media := media p; metadata := metadata p; scrapedAt := scrapedAt p;
     scrollPosition := scrollPosition p; finalOrder := Some n |}.

(** ** Finalizer, step 1: [removeDuplicatePosts] *)

Definition createContentHash (post : Post) : string :=
  simpleHash (text post ++ "|" ++ timestamp post ++ "|" ++ author post).

(** The [for] loop, with the [seen] set threaded through; [uniquePosts] is
    built in order. *)
Fixpoint removeDuplicatesFrom (seen : gset string) (posts : list Post) : list Post :=
  match posts with
  | [] => []
  | post :: rest =>
      let contentHash := createContentHash post in
      if bool_decide (id post ∉ seen) && bool_decide (contentHash ∉ seen)
      then post :: removeDuplicatesFrom ({[contentHash]} ∪ ({[id post]} ∪ seen)) rest
      else removeDuplicatesFrom seen rest
  end.

Definition removeDuplicatePosts (posts : list Post) : list Post :=
  removeDuplicatesFrom ∅ posts.

(** ** Numbers: binary64 *)

Module JsNumber.

Definition prec : Z := 53.
Definition emax : Z := 1024.

Definition NaN : spec_float := S754_nan.

(** The Number value of an integer (round to nearest, ties to even). *)
Definition ofZ (z : Z) : spec_float := binary_normalize prec emax z 0 false.

Definition pow10 (k : nat) : positive := Nat.iter k (Pos.mul 10) 1%positive.

(** The Number value of the decimal [m / 10^k], for [0 <= m]: a single
    correctly rounded division of two exact operands. *)
Definition ofDecimal (m : Z) (k : nat) : spec_float :=
  match m with
  | Zpos p => SFdiv prec emax (S754_finite false p 0) (S754_finite false (pow10 k) 0)
  | _ => S754_zero false
  end.

Definition mul (x y : spec_float) : spec_float := SFmul prec emax x y.

(** [Math.floor] *)
Definition floor (x : spec_float) : spec_float :=
  match x with
  | S754_finite s m e =>
      if 0 <=? e then x
      else binary_normalize prec emax (Z.shiftr (cond_Zopp s (Zpos m)) (- e)) 0 s
  | _ => x
  end.

(** Truthiness of a number: neither NaN nor a zero. *)
Definition truthy (x : spec_float) : bool :=
  match x with
  | S754_nan | S754_zero _ => false
  | _ => true
  end.

(** [x || y] *)
Definition orElse (x y : spec_float) : spec_float := if truthy x then x else y.

Definition sub (x y : spec_float) : spec_float := SFsub prec emax x y.

(** The integer part of a finite number (truncation towards zero);
    [None] for NaN and the infinities. *)
Definition truncate (x : spec_float) : option Z :=
  match x with
  | S754_zero _ => Some 0
  | S754_finite s m e =>
      Some (cond_Zopp s (if 0 <=? e then Z.shiftl (Zpos m) e else Z.shiftr (Zpos m) (- e)))
  | _ => None
  end.

End JsNumber.

(** ** Reading decimal digits *)

Definition isDigit (c : ascii) : bool :=
  (48 <=? JsString.charCode c) && (JsString.charCode c <=? 57).

Definition digitValue (c : ascii) : Z := JsString.charCode c - 48.

(** Reads the longest run of decimal digits at the head of [s], continuing
    the value [acc] and the digit count [n]; returns value, count, rest. *)
Fixpoint takeDigits (acc : Z) (n : nat) (s : string) : Z * nat * string :=
  match s with
  | String c s' =>
      if isDigit c then takeDigits (10 * acc + digitValue c) (S n) s'
      else (acc, n, s)
  | EmptyString => (acc, n, s)
  end.

(** [parseFloat] and [parseInt] (radix 10) on the strings that reach them
    in [parseCount], which hold only digits, ['.'], [K], [k], [M], [m]:
    white space, a sign, an exponent, a hexadecimal prefix or [Infinity]
    cannot occur there.  [parseFloat] reads the longest prefix
    [digits [. digits]] or [. digits]; no digit at all gives NaN. *)
Definition parseFloat (s : string) : spec_float :=
  let '(i, ni, r) := takeDigits 0 0 s in
  match r with
  | String "."%char r' =>
      let '(m, n, _) := takeDigits i ni r' in
      match n with
      | O => JsNumber.NaN
      | _ => JsNumber.ofDecimal m (n - ni)
      end
  | _ =>
      match ni with
      | O => JsNumber.NaN
      | _ => JsNumber.ofDecimal i 0
      end
  end.

Definition parseInt (s : string) : spec_float :=
  let '(i, ni, _) := takeDigits 0 0 s in
  match ni with
  | O => JsNumber.NaN
  | _ => JsNumber.ofZ i
  end.

(** ** Engagement counts: [parseCount] *)

Fixpoint filterChars (keep : ascii -> bool) (s : string) : string :=
  match s with
  | EmptyString => EmptyString
  | String c s' => if keep c then String c (filterChars keep s') else filterChars keep s'
  end.

(** The characters that [/[^\d.KMkm]/g] leaves in place. *)
Definition countChar (c : ascii) : bool :=
  isDigit c ||
  match c with
  | "."%char | "K"%char | "M"%char | "k"%char | "m"%char => true
  | _ => false
  end.

Definition parseCount (text : string) : spec_float :=
  if negb (JsString.truthy text) then JsNumber.ofZ 0
  else
    let cleanText := filterChars countChar text in
    if JsString.includes "K" cleanText || JsString.includes "k" cleanText then
      JsNumber.floor (JsNumber.mul (parseFloat cleanText) (JsNumber.ofZ 1000))
    else if JsString.includes "M" cleanText || JsString.includes "m" cleanText then
      JsNumber.floor (JsNumber.mul (parseFloat cleanText) (JsNumber.ofZ 1000000))
    else JsNumber.orElse (parseInt cleanText) (JsNumber.ofZ 0).

(** ** Dates and [parseTimestamp] *)

(** A [Date] object: a time value in milliseconds, or the Invalid Date
    (time value NaN).  Both are objects, hence truthy. *)
Inductive Date := ValidDate (t : Z) | InvalidDate.

Definition maxTimeValue : Z := 8640000000000000.

(** [new Date(number)]: TimeClip. *)
Definition dateOfNumber (x : spec_float) : Date :=
  match JsNumber.truncate x with
  | Some t => if Z.abs t <=? maxTimeValue then ValidDate t else InvalidDate
  | None => InvalidDate
  end.

Definition isUnit (c : ascii) : bool :=
  match c with
  | "s"%char | "m"%char | "h"%char | "d"%char => true
  | _ => false
  end.

(** [timestamp.match(/(\d+)([smhd])/)]: the leftmost digit run that is
    directly followed by a unit letter.  From a start inside a run the
    greedy [\d+] reaches the same end, so starts are tried left to right
    and the run is always read to its end. *)
Fixpoint relativeMatch (s : string) : option (string * ascii) :=
  match s with
  | EmptyString => None
  | String c s' =>
      if isDigit c then
        match takeDigits 0 0 s with
        | (_, n, String u _) =>
            if isUnit u then Some (substring 0 n s, u) else relativeMatch s'
        | _ => relativeMatch s'
        end
      else relativeMatch s'
  end.

Section Timestamps.

(** [new Date(string)], the host's date parser: ISO strings and whatever
    else the engine accepts; Invalid Date when it accepts nothing. *)
Variable dateOfString : string -> Date.

(** [now] is the clock read by [new Date()] inside the call. *)
Definition parseTimestamp (now : Z) (timestamp : string) : option Date :=
  if negb (JsString.truthy timestamp) then None
  else if JsString.includes "T" timestamp && JsString.includes "Z" timestamp then
    Some (dateOfString timestamp)
  else
    match relativeMatch timestamp with
    | Some (digits, unit) =>
        let value := parseInt digits in
        let getTime := JsNumber.ofZ now in
        let times x k := JsNumber.mul x (JsNumber.ofZ k) in
        match unit with
        | "s"%char => Some (dateOfNumber (JsNumber.sub getTime (times value 1000)))
        | "m"%char => Some (dateOfNumber (JsNumber.sub getTime (times (times value 60) 1000)))
        | "h"%char =>
            Some (dateOfNumber (JsNumber.sub getTime (times (times (times value 60) 60) 1000)))
        | "d"%char =>
            Some (dateOfNumber
                    (JsNumber.sub getTime (times (times (times (times value 24) 60) 60) 1000)))
        | _ => Some (dateOfString timestamp)
        end
    | None => Some (dateOfString timestamp)
    end.

End Timestamps.

(** ** [Array.prototype.sort] *)

(** The comparator's result is used for its sign only: negative puts the
    first argument first, positive the second, and zero or NaN ([None])
    leaves the two as they were.  The language requires the sort to be
    stable; for a comparator that is a consistent ordering every conforming
    sort returns the same array, which stable insertion computes.  For an
    inconsistent comparator the language leaves the order to the engine,
    and the insertion below is one admissible engine. *)
Section ArraySort.

Context {A : Type}.
Variable comparefn : A -> A -> option Z.

(** [a], which stands before [b], stays before it. *)
Definition staysBefore (a b : A) : bool :=
  match comparefn a b with
  | Some v => v <=? 0
  | None => true
  end.

Fixpoint insertSorted (a : A) (l : list A) : list A :=
  match l with
  | [] => [a]
  | b :: l' => if staysBefore a b then a :: b :: l' else b :: insertSorted a l'
  end.

Definition arraySort (l : list A) : list A := foldr insertSorted [] l.

End ArraySort.

(** Exceptions: a computation returns a value or throws; [error] is the
    [message] of the exception. *)
Inductive Outcome (A : Type) := Returns (a : A) | Throws (error : string).
Arguments Returns {A} a.
Arguments Throws {A} error.

(** ** Finalizer, steps 2 to 4 *)

Module Stats.

Record DateRange := {
  oldest : Z;    (* time value of [dates[0]], which the code renders in ISO form *)
  newest : Z;
  span : Z
}.

Record t := {
  totalPosts : Z;
  totalScrolls : Z;
  postsWithMedia : Z;
  postsWithText : Z;
  retweets : Z;
  replies : Z;
  threads : Z;
  verified : Z;
  languages : list string;
  dateRange : option DateRange
}.

End Stats.

(** [[...new Set(l)]]: first occurrences, in order. *)
Fixpoint distinctFrom (seen : gset string) (l : list string) : list string :=
  match l with
  | [] => []
  | x :: l' =>
      if bool_decide (x ∈ seen) then distinctFrom seen l'
      else x :: distinctFrom ({[x]} ∪ seen) l'
  end.

Definition count {A : Type} (f : A -> bool) (l : list A) : Z :=
  Z.of_nat (length (List.filter f l)).

Section Finalizer.

Variable dateOfString : string -> Date.

(** The clock during finalization: every [new Date()] of one finalization
    is taken to read the same millisecond. *)
Variable now : Z.

(** [timeB - timeA] for two [Date] objects; the exact difference stands
    for its binary64 rounding, which has the same sign. *)
Definition dateDifference (b a : Date) : option Z :=
  match b, a with
  | ValidDate tb, ValidDate ta => Some (tb - ta)
  | _, _ => None
  end.

(** The comparator of [sortAndOrderPosts]. *)
Definition comparePosts (a b : Post) : option Z :=
  match parseTimestamp dateOfString now (timestamp a),
        parseTimestamp dateOfString now (timestamp b) with
  | Some timeA, Some timeB => dateDifference timeB timeA
  | _, _ => Some (scrollPosition a - scrollPosition b)
  end.

Definition sortAndOrderPosts (posts : list Post) : list Post :=
  imap (fun index post => setFinalOrder (Z.of_nat index + 1) post)
       (arraySort comparePosts posts).

(** [toISOString] throws a [RangeError] on an Invalid Date.  The array
    that is sorted here is as the engine leaves it when the dates are all
    valid (the comparator is an ordering) and when they are all invalid
    (every arrangement starts with an Invalid Date); for valid and invalid
    dates mixed, which end of the array an Invalid Date reaches is the
    engine's choice, and the result below is that of [arraySort]. *)
Definition getDateRange (posts : list Post) : Outcome (option Stats.DateRange) :=
  let dates :=
    arraySort (fun a b => dateDifference a b)
              (omap (fun p => parseTimestamp dateOfString now (timestamp p)) posts) in
  match dates, last dates with
  | first :: _, Some final =>
      match first, final with
      | ValidDate t0, ValidDate t1 =>
          Returns (Some {| Stats.oldest := t0; Stats.newest := t1;
                           Stats.span := if (1 <? Z.of_nat (length dates)) then t1 - t0 else 0 |})
      | _, _ => Throws "Invalid time value"
      end
  | _, _ => Returns None
  end.

Definition getScrapingStats (scrollCount : Z) (posts : list Post) : Outcome Stats.t :=
  match getDateRange posts with
  | Throws e => Throws e
  | Returns range =>
      Returns
        {| Stats.totalPosts := Z.of_nat (length posts);
           Stats.totalScrolls := scrollCount;
           Stats.postsWithMedia := count (fun p => 0 <? Z.of_nat (length (media p))) posts;
           Stats.postsWithText := count (fun p => 0 <? Z.of_nat (String.length (text p))) posts;
           Stats.retweets := count (fun p => isRetweet (metadata p)) posts;
           Stats.replies := count (fun p => isReply (metadata p)) posts;
           Stats.threads := count (fun p => hasThread (metadata p)) posts;
           Stats.verified := count (fun p => verified (metadata p)) posts;
           Stats.languages :=
             distinctFrom ∅ (List.filter JsString.truthy (map (fun p => language (metadata p)) posts));
           Stats.dateRange := range |}
  end.

End Finalizer.

(** ** The page, as the extractor reads it *)

(** A candidate node with what the DOM queries of the field extractors
    return on it. *)
Record Element := {
  isElementVisible : bool;
  isValidPost : bool;
  statusId : option string;   (* the digits of [/status/(\d+)] in the first status link *)
  innerText : string;         (* [element.innerText.trim()] *)
  extractPostText : string;
  extractTimestamp : string;
  extractAuthor : string;
  extractPostUrl : string;
  buttons : list (string * string);   (* [aria-label] and trimmed text of each [role=button] *)
  extractMediaInfo : list Media;
  extractPostMetadata : Metadata;
  clock : Z                   (* [Date.now()] while the node is read *)
}.

Record Page := {
  primaryColumn : bool;       (* [waitForElement] finds the column in time *)
  nodes : list Element        (* what the first successful post selector returns *)
}.

Definition generatePostId (element : Element) : string :=
  match statusId element with
  | Some digits => digits
  | None => simpleHash (innerText element ++ JsString.ofNat (clock element))
  end.

Definition extractEngagementMetrics (element : Element) : Metrics :=
  fold_left
    (fun metrics button =>
       let '(ariaLabel, text) := button in
       if JsString.includes "reply" ariaLabel || JsString.includes "Reply" ariaLabel then
         {| replies := parseCount text; retweets := retweets metrics;
            likes := likes metrics; views := views metrics |}
       else if JsString.includes "retweet" ariaLabel || JsString.includes "Retweet" ariaLabel then
         {| replies := replies metrics; retweets := parseCount text;
            likes := likes metrics; views := views metrics |}
       else if JsString.includes "like" ariaLabel || JsString.includes "Like" ariaLabel then
         {| replies := replies metrics; retweets := retweets metrics;
            likes := parseCount text; views := views metrics |}
       else metrics)
    (buttons element)
    {| replies := JsNumber.ofZ 0; retweets := JsNumber.ofZ 0;
       likes := JsNumber.ofZ 0; views := JsNumber.ofZ 0 |}.

(** ** The scraper's state *)

(** The [Map] from post id to post; iteration is in insertion order. *)
Module PostMap.

Definition t := list (string * Post).

Definition has (key : string) (m : t) : bool :=
  existsb (fun entry => String.eqb (fst entry) key) m.

Definition set (key : string) (value : Post) (m : t) : t :=
  if has key m
  then map (fun entry => if String.eqb (fst entry) key then (key, value) else entry) m
  else (m ++ [(key, value)])%list.

Definition values (m : t) : list Post := map snd m.

Definition size (m : t) : Z := Z.of_nat (length m).

End PostMap.

Record Settings := { scrollDelay : Z; maxPosts : Z }.

Record Scraper := {
  scrapedPosts : PostMap.t;
  scrollCount : Z;
  settings : Settings
}.

(** The messages sent with [chrome.runtime.sendMessage], by action.
    [updateProgress] is shown with the posts, the scroll count and the
    status text of its payload; [logError] is the report of the error
    handler, with the context and the message of its entry. *)
Inductive Message :=
| scrapingStarted
| updateProgress (posts : list Post) (scrollCount : Z) (message : string)
| scrapingComplete (posts : list Post) (totalScrolls : Z) (stats : Stats.t)
| scrapingError (error : string)
| logError (context message : string).

Definition sendProgressUpdate (s : Scraper) (message : string) : Message :=
  updateProgress (PostMap.values (scrapedPosts s)) (scrollCount s) message.

(** ** Per-pass extraction and admission *)

Definition extractPostData (s : Scraper) (element : Element) : option Post :=
  let postId := generatePostId element in
  let text := extractPostText element in
  let media := extractMediaInfo element in
  if negb (JsString.truthy text) && (Z.of_nat (length media) =? 0) then None
  else
    Some {| id := postId;
            order := PostMap.size (scrapedPosts s) + 1;
            text := text;
            author := extractAuthor element;
            timestamp := extractTimestamp element;
            url := extractPostUrl element;
            metrics := extractEngagementMetrics element;
            media := media;
            metadata := extractPostMetadata element;
            scrapedAt := clock element;
            scrollPosition := scrollCount s;
            finalOrder := None |}.

Definition isValidPostData (post : Post) : bool :=
  JsString.truthy (id post) &&
  ((0 <? Z.of_nat (String.length (text post))) || (0 <? Z.of_nat (length (media post)))).

(** Every post of the pass is extracted before any is admitted: the map
    that [extractPostData] reads is the one the pass started with. *)
Definition extractPostsFromDOM (s : Scraper) (page : Page) : list Post :=
  omap
    (fun element =>
       match extractPostData s element with
       | Some post => if isValidPostData post then Some post else None
       | None => None
       end)
    (List.filter (fun element => isElementVisible element && isValidPost element) (nodes page)).

(** The test of the [forEach] body in [scrapeCurrentPosts]. *)
Definition admits (m : PostMap.t) (post : Post) : bool :=
  JsString.truthy (id post) && negb (PostMap.has (id post) m).

Definition admitPost (m : PostMap.t) (post : Post) : PostMap.t :=
  if admits m post then PostMap.set (id post) post m else m.

Definition withPosts (s : Scraper) (m : PostMap.t) : Scraper :=
  {| scrapedPosts := m; scrollCount := scrollCount s; settings := settings s |}.

(** The double quote character. *)
Definition quote : string := String "034"%char EmptyString.

(** [waitForElement] rejects when the primary column does not show up. *)
Definition scrapeCurrentPosts (s : Scraper) (page : Page) : Outcome (Scraper * Message) :=
  if primaryColumn page then
    let posts := extractPostsFromDOM s page in
    let s' := withPosts s (fold_left admitPost posts (scrapedPosts s)) in
    Returns (s', sendProgressUpdate s' "")
  else Throws ("Element [data-testid=" ++ quote ++ "primaryColumn" ++ quote ++
               "] not found within 5000ms").

(** ** The scroll loop: [startAutoScroll] *)

(** What one turn of the [while] loop meets: the value of
    [isScrapingActive] at each of the loop's four checkpoints (a stop
    request clears it while the loop is suspended), the outcome of the
    scroll, the page after the wait, the clock and the rate-limit probe.
    [waitForNewContent] only waits and keeps counters that the loop does
    not read; it shows here through the page that follows it. *)
Record Pass := {
  activeAtHead : bool;
  scrollSucceeds : bool;       (* [performScroll().success] *)
  activeAfterScroll : bool;
  activeAfterWait : bool;
  page : Page;
  dateNow : Z;                 (* [Date.now()] in the silence test *)
  rateLimited : bool;          (* [checkForRateLimiting()] *)
  activeBeforeDelay : bool
}.

(** The loop's local variables. *)
Record Locals := {
  consecutiveEmptyScrolls : Z;
  noNewPostsStartTime : option Z
}.

Definition maxConsecutiveEmptyScrolls : Z := 2.

(** The [break] taken. *)
Inductive Exit :=
| stoppedByUser
| maxPostsReached
| scrollFailed
| silentFor5s
| tooManyEmptyScrolls
| rateLimitingDetected.

Inductive Turn :=
| continue (s : Scraper) (l : Locals) (sent : list Message)
| break (s : Scraper) (why : Exit) (sent : list Message)
| throw (error : string).

Definition scrolled (s : Scraper) : Scraper :=
  {| scrapedPosts := scrapedPosts s; scrollCount := scrollCount s + 1; settings := settings s |}.

(** The silence bookkeeping after a pass with [newPostsFound] new posts:
    [None] is the [break] of the 5-second test. *)
Definition trackSilence (l : Locals) (newPostsFound clock : Z) : option Locals :=
  if newPostsFound =? 0 then
    match noNewPostsStartTime l with
    | None =>
        Some {| consecutiveEmptyScrolls := consecutiveEmptyScrolls l + 1;
                noNewPostsStartTime := Some clock |}
    | Some start =>
        if 5000 <=? clock - start then None
        else Some {| consecutiveEmptyScrolls := consecutiveEmptyScrolls l + 1;
                     noNewPostsStartTime := Some start |}
    end
  else Some {| consecutiveEmptyScrolls := 0; noNewPostsStartTime := None |}.

Definition turn (s : Scraper) (l : Locals) (p : Pass) : Turn :=
  if negb (activeAtHead p) then break s stoppedByUser []
  else if maxPosts (settings s) <=? PostMap.size (scrapedPosts s) then break s maxPostsReached []
  else
    let postsBeforeScroll := PostMap.size (scrapedPosts s) in
    if negb (scrollSucceeds p) then break s scrollFailed []
    else
      let s := scrolled s in
      if negb (activeAfterScroll p) then break s stoppedByUser []
      else if negb (activeAfterWait p) then break s stoppedByUser []
      else
        match scrapeCurrentPosts s (page p) with
        | Throws e => throw e
        | Returns (s, progress) =>
            let postsAfterScroll := PostMap.size (scrapedPosts s) in
            let newPostsFound := postsAfterScroll - postsBeforeScroll in
            if maxPosts (settings s) <=? postsAfterScroll then break s maxPostsReached [progress]
            else
              match trackSilence l newPostsFound (dateNow p) with
              | None => break s silentFor5s [progress]
              | Some l =>
                  if maxConsecutiveEmptyScrolls <=? consecutiveEmptyScrolls l
                  then break s tooManyEmptyScrolls [progress]
                  else if rateLimited p then break s rateLimitingDetected [progress]
                  else if negb (activeBeforeDelay p) then break s stoppedByUser [progress]
                  else continue s l [progress]
              end
        end.

(** ** Completion and the whole run *)

(** [/^https:\/\/(x|twitter)\.com\/[^\/]+\/?$/]: after the host, one
    non-empty segment without a slash, then at most one final slash. *)
Fixpoint dropPrefix (p s : string) : option string :=
  match p, s with
  | EmptyString, _ => Some s
  | String a p', String b s' => if Ascii.eqb a b then dropPrefix p' s' else None
  | String _ _, EmptyString => None
  end.

Fixpoint oneSegment (nonEmpty : bool) (s : string) : bool :=
  match s with
  | EmptyString => nonEmpty
  | String "/"%char EmptyString => nonEmpty
  | String "/"%char _ => false
  | String _ s' => oneSegment true s'
  end.

Definition isXProfilePage (url : string) : bool :=
  match dropPrefix "https://x.com/" url, dropPrefix "https://twitter.com/" url with
  | Some rest, _ | None, Some rest => oneSegment false rest
  | None, None => false
  end.

(** How an asynchronous function ends. *)
Inductive Ending := returned | threw (error : string).

Section Run.

Variable dateOfString : string -> Date.

(** [completeScraping]; [now] is the clock while it runs.  The message is
    sent only if computing the statistics does not throw. *)
Definition completeScraping (now : Z) (s : Scraper) : Outcome Message :=
  let posts := PostMap.values (scrapedPosts s) in
  let posts := removeDuplicatePosts posts in
  let posts := sortAndOrderPosts dateOfString now posts in
  match getScrapingStats dateOfString now (scrollCount s) posts with
  | Returns stats => Returns (scrapingComplete posts (scrollCount s) stats)
  | Throws e => Throws e
  end.

(** The loop over the passes the environment offers, from the loop's
    locals [l]; [None] when the offered passes run out while the loop
    goes on.  The result is the list of messages sent and how
    [startAutoScroll] ends. *)
Fixpoint autoScrollFrom (now : Z) (s : Scraper) (l : Locals) (passes : list Pass)
  : option (list Message * Ending) :=
  match passes with
  | [] => None
  | p :: passes' =>
      match turn s l p with
      | throw e => Some ([], threw e)
      | break s _ sent =>
          match completeScraping now s with
          | Returns done => Some ((sent ++ [done])%list, returned)
          | Throws e => Some (sent, threw e)
          end
      | continue s l sent =>
          match autoScrollFrom now s l passes' with
          | Some (sent', ending) => Some ((sent ++ sent')%list, ending)
          | None => None
          end
      end
  end.

Definition startAutoScroll (now : Z) (s : Scraper) (passes : list Pass) :=
  autoScrollFrom now s {| consecutiveEmptyScrolls := 0; noNewPostsStartTime := None |} passes.

(** What a run meets: the address of the page, the page at the first
    extraction, the passes of the loop and the clock at completion. *)
Record World := {
  href : string;
  firstPage : Page;
  passes : list Pass;
  finalClock : Z
}.

(** [startScraping], as called by [handleMessage] with the settings of the
    popup (which always carry both fields): the messages that the run
    sends, those of a failure included ([startScraping] logs the error,
    reports it and rethrows, [handleMessage] reports it again).

    The list holds what the run itself sends.  A pass that finds the flag
    cleared stands for a stop request; [stopScraping] then sends a progress
    message of its own and arms a timer that calls [completeScraping] once
    more, on posts whose [finalOrder] the first call has already written.
    These are not in the list: the interleaving of a stop request with the
    run is the subject of [Cancellation] below, and the list is the whole
    of what is sent when no pass finds the flag cleared. *)
Definition startScraping (newSettings : Settings) (w : World) : option (list Message) :=
  let failed (sent : list Message) (e : string) :=
    (sent ++ [logError "SCRAPING_INITIALIZATION" e;
              scrapingError ("Scraping failed: " ++ e); scrapingError e])%list in
  if negb (isXProfilePage (href w)) then Some (failed [] "Not on a valid X profile page")
  else
    let s := {| scrapedPosts := []; scrollCount := 0; settings := newSettings |} in
    let sent := [scrapingStarted; updateProgress [] 0 "Initializing scraper..."] in
    match scrapeCurrentPosts s (firstPage w) with
    | Throws e => Some (failed sent e)
    | Returns (s, progress) =>
        match startAutoScroll (finalClock w) s (passes w) with
        | None => None
        | Some (sent', returned) => Some (sent ++ progress :: sent')%list
        | Some (sent', threw e) => Some (failed (sent ++ progress :: sent')%list e)
        end
    end.

End Run.

(** ** Stop requests and the order of messages *)

(** The control flow of one run as a transition system.  [startScraping]
    is an asynchronous function: it runs until an [await], and a stop
    request or a timer can only run while it is suspended there.  The
    system records the flag, where the run is suspended, the pending
    timers armed by [stopScraping] and the kinds of message sent so far,
    of the four that the popup handles (the report of the error handler
    is left out).  Computing the statistics is taken not to throw here.
    The system holds one run at a time: [handleMessage] would begin a
    second run on a start request that arrives while one is suspended, the
    two sharing the scraper's state; such a request is skipped by [step],
    so the executions covered are those in which it does not occur. *)
Module Cancellation.

(** The [await]s of a run. *)
Inductive Await :=
| firstColumn      (* [scrapeCurrentPosts] before the loop: [waitForElement] *)
| scrollSettling   (* [performScroll]: [delay(500)] *)
| newContent       (* [waitForNewContent]: its polling delays *)
| column           (* [scrapeCurrentPosts] in the loop: [waitForElement] *)
| passDelay.       (* [delay(this.settings.scrollDelay)] *)

Inductive Run := idle | suspended (point : Await) | over.

Inductive Kind := started | progress | complete | error.

Record System := {
  isScrapingActive : bool;
  run : Run;
  timers : nat;                 (* callbacks armed by [stopScraping], not yet run *)
  sent : list Kind
}.

Definition initial : System :=
  {| isScrapingActive := false; run := idle; timers := 0; sent := [] |}.

(** What the code finds when the run resumes. *)
Record Finds := {
  columnFound : bool;     (* [waitForElement] resolves *)
  maxReached : bool;      (* [scrapedPosts.size >= maxPosts] at the test reached *)
  scrollOk : bool;        (* [performScroll().success] *)
  quiet : bool;           (* the 5-second test or the empty-scroll test breaks *)
  limited : bool          (* [checkForRateLimiting()] *)
}.

Inductive Action :=
| startRequest (validPage : bool)
| stopRequest
| timerFires
| resumes (f : Finds).

Definition send (k : list Kind) (s : System) : System :=
  {| isScrapingActive := isScrapingActive s; run := run s; timers := timers s;
     sent := (sent s ++ k)%list |}.

(** [completeScraping], reached from the loop ([r] is [over]) or from the
    timer ([r] is the run as it stands). *)
Definition completeScraping (r : Run) (s : System) : System :=
  {| isScrapingActive := false; run := r; timers := timers s;
     sent := (sent s ++ [complete])%list |}.

(** The [catch] of [startScraping] followed by that of [handleMessage]. *)
Definition fails (s : System) : System :=
  {| isScrapingActive := false; run := over; timers := timers s;
     sent := (sent s ++ [error; error])%list |}.

Definition suspend (a : Await) (s : System) : System :=
  {| isScrapingActive := isScrapingActive s; run := suspended a; timers := timers s;
     sent := sent s |}.

(** From the head of the [while] loop to the first [await] or to the end. *)
Definition loopHead (f : Finds) (s : System) : System :=
  if negb (isScrapingActive s) then completeScraping over s
  else if maxReached f then completeScraping over s
  else if negb (scrollOk f) then completeScraping over s
  else suspend scrollSettling s.

Definition resume (a : Await) (f : Finds) (s : System) : System :=
  match a with
  | firstColumn =>
      if columnFound f then loopHead f (send [progress] s) else fails s
  | scrollSettling =>
      if negb (isScrapingActive s) then completeScraping over s else suspend newContent s
  | newContent =>
      if negb (isScrapingActive s) then completeScraping over s else suspend column s
  | column =>
      if columnFound f then
        let s := send [progress] s in
        if maxReached f then completeScraping over s
        else if quiet f then completeScraping over s
        else if limited f then completeScraping over s
        else if negb (isScrapingActive s) then completeScraping over s
        else suspend passDelay s
      else fails s
  | passDelay => loopHead f s
  end.

Definition step (s : System) (a : Action) : System :=
  match a with
  | startRequest validPage =>
      match run s with
      | suspended _ => s      (* a second, concurrent run is not represented *)
      | _ =>
          if validPage then
            {| isScrapingActive := true; run := suspended firstColumn; timers := timers s;
               sent := (sent s ++ [started; progress])%list |}
          else fails s
      end
  | stopRequest =>
      {| isScrapingActive := false; run := run s; timers := S (timers s);
         sent := (sent s ++ [progress])%list |}
  | timerFires =>
      match timers s with
      | O => s
      | S n =>
          let s := {| isScrapingActive := isScrapingActive s; run := run s; timers := n;
                      sent := sent s |} in
          if negb (isScrapingActive s) then completeScraping (run s) s else s
      end
  | resumes f =>
      match run s with
      | suspended a => resume a f s
      | _ => s
      end
  end.

Definition exec (actions : list Action) : System := fold_left step actions initial.

(** The property at stake: nothing is sent after a completion message. *)
Definition completionLast (l : list Kind) : Prop :=
  forall before after, l = (before ++ complete :: after)%list -> after = [].

End Cancellation.

(** ** [delay] *)

Definition checkInterval : Z := 100.

(** [delay(ms)]: the interval callback runs every 100 ms and resolves the
    promise when it finds the flag cleared or the time elapsed.  [active n]
    is [isScrapingActive] as the [n]-th call finds it.  [delayFrom] is the
    callback from its [n]-th call on, for at most [calls] calls; the result
    is the number of the call that resolves the promise. *)
Fixpoint delayFrom (calls : nat) (ms : Z) (active : nat -> bool) (n : nat) : option nat :=
  match calls with
  | O => None
  | S calls' =>
      let elapsed := Z.of_nat n * checkInterval in
      if negb (active n) then Some n
      else if ms <=? elapsed then Some n
      else delayFrom calls' ms active (S n)
  end.

Definition delay (ms : Z) (active : nat -> bool) : option nat :=
  delayFrom (S (Z.to_nat (ms / checkInterval))) ms active 1.

(** ** The background service *)

(** [BackgroundService.isXUrl]:
    [url && (url.includes('x.com') || url.includes('twitter.com'))],
    read as a condition. *)
Definition isXUrl (url : string) : bool :=
  JsString.truthy url &&
  (JsString.includes "x.com" url || JsString.includes "twitter.com" url).

(** ** Selector utilities: [SelectorUtils] *)

Section SelectorUtils.

(** An element handle. *)
Context {E : Type}.

(** [container.querySelector]: an element, [null], or an exception on an
    invalid selector. *)
Variable querySelector : string -> Outcome (option E).

(** [container.querySelectorAll], likewise. *)
Variable querySelectorAll : string -> Outcome (list E).

Fixpoint findElement (selectors : list string) : option E :=
  match selectors with
  | [] => None
  | selector :: rest =>
      match querySelector selector with
      | Returns (Some element) => Some element
      | _ => findElement rest
      end
  end.

Fixpoint findElements (selectors : list string) : list E :=
  match selectors with
  | [] => []
  | selector :: rest =>
      match querySelectorAll selector with
      | Returns (element :: elements) => element :: elements
      | _ => findElements rest
      end
  end.

End SelectorUtils.

(** [SelectorUtils.generateHash]: the loop of [simpleHash] behind a guard
    for an empty content. *)
Definition generateHash (content : string) : string :=
  if negb (JsString.truthy content) then "0"
  else JsString.ofNat (Z.abs (fold_left hashStep (JsString.charCodes content) 0)).

(** ** The error log: [ErrorHandler] *)

Module ErrorHandler.

(** An entry as [logError] builds it; the time value stands for the ISO
    string, and the stack and the metadata, which no method reads, are left
    out. *)
Record Entry := {
  timestamp : Z;
  context : string;
  message : string;
  id : string
}.

Definition maxErrors : Z := 100.

(** [array.slice(start)] *)
Definition slice {A : Type} (start : Z) (l : list A) : list A :=
  let len := Z.of_nat (length l) in
  let from := if start <? 0 then Z.max (len + start) 0 else Z.min start len in
  drop (Z.to_nat from) l.

(** [logError] from the [push] on: the array after the call. *)
Definition logError (errors : list Entry) (errorEntry : Entry) : list Entry :=
  let errors := (errors ++ [errorEntry])%list in
  if maxErrors <? Z.of_nat (length errors) then slice (- maxErrors) errors else errors.

(** [getRecentErrors(count)], for an integer [count]. *)
Definition getRecentErrors (count : Z) (errors : list Entry) : list Entry :=
  slice (- count) errors.

Definition getErrorsByContext (wanted : string) (errors : list Entry) : list Entry :=
  List.filter (fun error => String.eqb (context error) wanted) errors.

End ErrorHandler.

(** ** The popup: computed fields of [formatDataForDownload] *)

Module Popup.

Definition add (x y : spec_float) : spec_float := SFadd JsNumber.prec JsNumber.emax x y.

(** [count || 0] for a count as the popup holds it: a number, or [null] or
    [undefined] ([None]). *)
Definition orZero (count : option spec_float) : spec_float :=
  match count with
  | Some x => JsNumber.orElse x (JsNumber.ofZ 0)
  | None => JsNumber.ofZ 0
  end.

(** [(likes || 0) + (retweets || 0) + (replies || 0)] *)
Definition engagementTotal (likes retweets replies : option spec_float) : spec_float :=
  add (add (orZero likes) (orZero retweets)) (orZero replies).

(** [isXProfilePage] of the popup, on the address of the active tab
    ([None] when the tab has none): the pattern of the content script
    behind a guard. *)
Definition isXProfilePage (url : option string) : bool :=
  match url with
  | None => false
  | Some url => if negb (JsString.truthy url) then false else isXProfilePage url
  end.

End Popup.

(** * Vocabulary of the properties *)

(** ** Orderings by a key *)

Section Keys.

Context {A : Type}.
Variable key : A -> Z.

Definition byKey (a b : A) : Prop := key a <= key b.

Definition keyIs (k : Z) (a : A) : bool := key a =? k.

End Keys.

(** ** The final ordering *)

Definition eraseFinalOrder (p : Post) : Post :=
  {| id := id p; order := order p; text := text p; author := author p;
     timestamp := timestamp p; url := url p; metrics := metrics p;
     media := media p; metadata := metadata p; scrapedAt := scrapedAt p;
     scrollPosition := scrollPosition p; finalOrder := None |}.

Section OrderingVocabulary.

Variable dateOfString : string -> Date.
Variable now : Z.

(** The resolved timestamp of a post: the time value of a valid date. *)
Definition resolved (p : Post) : option Z :=
  match parseTimestamp dateOfString now (timestamp p) with
  | Some (ValidDate t) => Some t
  | _ => None
  end.

Definition resolvedAt (t : Z) (p : Post) : bool :=
  match resolved p with
  | Some t' => t' =? t
  | None => false
  end.

Definition scrolledAt (k : Z) (p : Post) : bool := scrollPosition p =? k.

(** Of two posts with resolved timestamps, the later one comes first. *)
Definition newestFirst (out : list Post) : Prop :=
  forall i j p q t1 t2,
    out !! i = Some p -> out !! j = Some q ->
    resolved p = Some t1 -> resolved q = Some t2 ->
    t1 > t2 -> (i < j)%nat.

(** A pair in which a resolved timestamp is missing is in ascending
    [scrollPosition]. *)
Definition earlierScrollFirst (out : list Post) : Prop :=
  forall i j p q,
    out !! i = Some p -> out !! j = Some q ->
    resolved p = None \/ resolved q = None ->
    scrollPosition p < scrollPosition q -> (i < j)%nat.

(** The key that the comparator follows when every timestamp is
    resolved: time, descending. *)
Definition timeKey (p : Post) : Z :=
  match resolved p with
  | Some t => - t
  | None => 0
  end.

End OrderingVocabulary.

(** ** Messages *)

Definition isProgress (m : Message) : Prop :=
  match m with
  | updateProgress _ _ _ => True
  | _ => False
  end.

(** ** The loop *)

Definition initialLocals : Locals :=
  {| consecutiveEmptyScrolls := 0; noNewPostsStartTime := None |}.

(** The locals at the head of the loop: no silence running, or one empty
    pass behind and its time recorded. *)
Definition steady (l : Locals) : Prop :=
  (consecutiveEmptyScrolls l = 0 /\ noNewPostsStartTime l = None) \/
  (consecutiveEmptyScrolls l = 1 /\ is_Some (noNewPostsStartTime l)).

Definition breaks (t : Turn) : Prop :=
  match t with
  | break _ _ _ => True
  | _ => False
  end.

(** The map after the extraction of pass [p]. *)
Definition afterPass (s : Scraper) (p : Pass) : PostMap.t :=
  fold_left admitPost (extractPostsFromDOM (scrolled s) (page p)) (scrapedPosts s).

(** The stop condition as the specification words it. *)
Definition claimedStop (s : Scraper) (l : Locals) (p : Pass) : Prop :=
  maxPosts (settings s) <= PostMap.size (afterPass s p) \/
  (PostMap.size (afterPass s p) = PostMap.size (scrapedPosts s) /\
   2 <= consecutiveEmptyScrolls l + 1 /\
   match noNewPostsStartTime l with
   | Some start => 5000 <= dateNow p - start
   | None => False
   end) \/
  rateLimited p = true \/
  scrollSucceeds p = false.

(** The stop condition of the code. *)
Definition stops (s : Scraper) (l : Locals) (p : Pass) : Prop :=
  (activeAtHead p = false \/ activeAfterScroll p = false \/
   activeAfterWait p = false \/ activeBeforeDelay p = false) \/
  (maxPosts (settings s) <= PostMap.size (scrapedPosts s) \/
   maxPosts (settings s) <= PostMap.size (afterPass s p)) \/
  scrollSucceeds p = false \/
  (PostMap.size (afterPass s p) = PostMap.size (scrapedPosts s) /\
   consecutiveEmptyScrolls l = 1) \/
  rateLimited p = true.

Module Quiet.

Definition scraper (scrolls : Z) : Scraper :=
  {| scrapedPosts := []; scrollCount := scrolls;
     settings := {| scrollDelay := 2000; maxPosts := 100 |} |}.

Definition emptyPage : Page := {| primaryColumn := true; nodes := [] |}.

(** A pass that finds nothing, with no stop request, at clock [t]. *)
Definition pass (t : Z) : Pass :=
  {| activeAtHead := true; scrollSucceeds := true; activeAfterScroll := true;
     activeAfterWait := true; page := emptyPage; dateNow := t; rateLimited := false;
     activeBeforeDelay := true |}.

Definition oneEmptyPass (t : Z) : Locals :=
  {| consecutiveEmptyScrolls := 1; noNewPostsStartTime := Some t |}.

End Quiet.


(** ** An empty feed *)



(** ** Sample records *)

Module Sample.

Definition plain : Metadata :=
  {| isRetweet := false; isReply := false; hasThread := false; language := "";
     verified := false |}.

Definition noMetrics : Metrics :=
  {| replies := JsNumber.ofZ 0; retweets := JsNumber.ofZ 0; likes := JsNumber.ofZ 0;
     views := JsNumber.ofZ 0 |}.

(** A text-only post as [extractPostData] builds it. *)
Definition post (id text author timestamp : string) (order scrollPosition : Z) : Post :=
  {| id := id; order := order; text := text; author := author; timestamp := timestamp;
     url := ""; metrics := noMetrics; media := []; metadata := plain; scrapedAt := 0;
     scrollPosition := scrollPosition; finalOrder := None |}.

(** A visible node with a status link and some text. *)
Definition node (status text author timestamp : string) : Element :=
  {| isElementVisible := true; isValidPost := true; statusId := Some status;
     innerText := text; extractPostText := text; extractTimestamp := timestamp;
     extractAuthor := author; extractPostUrl := ""; buttons := [];
     extractMediaInfo := []; extractPostMetadata := plain; clock := 0 |}.

(** A host date parser that accepts nothing. *)
Definition noDates (s : string) : Date := InvalidDate.

Definition now : Z := 1700000000000.

(** Three posts: two with relative timestamps around one without any. *)
Definition twoHours : Post := post "1" "first" "ann" "2h" 1 0.
Definition unstamped : Post := post "2" "second" "ann" "" 2 1.
Definition oneHour : Post := post "3" "third" "ann" "1h" 3 2.

(** The same text, time and author under two identities. *)
Definition original : Post := post "1001" "hello" "ann" "2h" 1 0.
Definition reappeared : Post := post "2002" "hello" "ann" "2h" 2 1.

End Sample.

Module FirstView.

Definition page : Page :=
  {| primaryColumn := true;
     nodes := [Sample.node "1001" "hello" "ann" "2h"; Sample.node "1002" "world" "ann" "1h"] |}.

Definition scraper : Scraper :=
  {| scrapedPosts := []; scrollCount := 0;
     settings := {| scrollDelay := 2000; maxPosts := 100 |} |}.

(** The [id] and [order] of the posts in the map after the first
    extraction. *)
Definition admitted : list (string * Z) :=
  match scrapeCurrentPosts scraper page with
  | Returns (s, _) => (fun p => (id p, order p)) <$> PostMap.values (scrapedPosts s)
  | Throws _ => []
  end.

End FirstView.

Module EmptyProfile.

Definition world : World :=
  {| href := "https://x.com/someuser"; firstPage := Quiet.emptyPage;
     passes := [Quiet.pass 0; Quiet.pass 2600]; finalClock := 2700 |}.

Definition settings : Settings := {| scrollDelay := 2000; maxPosts := 100 |}.

End EmptyProfile.

Module NoColumn.

(** A page without a candidate node and without the primary column. *)
Definition bare : Page := {| primaryColumn := false; nodes := [] |}.

Definition pass (t : Z) : Pass :=
  {| activeAtHead := true; scrollSucceeds := true; activeAfterScroll := true;
     activeAfterWait := true; page := bare; dateNow := t; rateLimited := false;
     activeBeforeDelay := true |}.

Definition world : World :=
  {| href := "https://x.com/someuser"; firstPage := bare;
     passes := [pass 0; pass 2600]; finalClock := 2700 |}.

(** The message of the error that [waitForElement] rejects with. *)
Definition error : string :=
  "Element [data-testid=" ++ quote ++ "primaryColumn" ++ quote ++ "] not found within 5000ms".

(** What the run sends: no completion message. *)
Definition sent : list Message :=
  [scrapingStarted; updateProgress [] 0 "Initializing scraper...";
   logError "SCRAPING_INITIALIZATION" error;
   scrapingError ("Scraping failed: " ++ error); scrapingError error].

End NoColumn.

Module TwoCopies.

(** A run that sees the same text, time and author under two identities,
    then nothing new. *)
Definition world : World :=
  {| href := "https://x.com/someuser";
     firstPage :=
       {| primaryColumn := true;
          nodes := [Sample.node "1001" "hello" "ann" "2h";
                    Sample.node "2002" "hello" "ann" "2h";
                    Sample.node "3003" "world" "ann" "1h"] |};
     passes := [Quiet.pass 0; Quiet.pass 2600];
     finalClock := Sample.now |}.

Definition settings : Settings := {| scrollDelay := 2000; maxPosts := 100 |}.

(** What the run sends. *)
Definition sent : list Message :=
  match startScraping Sample.noDates settings world with
  | Some sent => sent
  | None => []
  end.

(** The posts of its completion message: the second copy is gone. *)
Definition posts : list Post :=
  [setFinalOrder 1 (Sample.post "3003" "world" "ann" "1h" 1 0);
   setFinalOrder 2 (Sample.post "1001" "hello" "ann" "2h" 1 0)].

Definition stats : Stats.t :=
  {| Stats.totalPosts := 2; Stats.totalScrolls := 2; Stats.postsWithMedia := 0;
     Stats.postsWithText := 2; Stats.retweets := 0; Stats.replies := 0;
     Stats.threads := 0; Stats.verified := 0; Stats.languages := [];
     Stats.dateRange :=
       Some {| Stats.oldest := Sample.now - 7200000; Stats.newest := Sample.now - 3600000;
               Stats.span := 3600000 |} |}.

End TwoCopies.

Module StopScenario.

Import Cancellation.

(** The page is in place and nothing ends the loop by itself. *)
Definition goesOn : Finds :=
  {| columnFound := true; maxReached := false; scrollOk := true; quiet := false;
     limited := false |}.

(** A run is started and reaches the settling delay of its first scroll;
    the stop request arrives there; the delay returns and the loop leaves;
    half a second after the request its timer fires. *)
Definition stopWhileScrolling : list Action :=
  [startRequest true; resumes goesOn; stopRequest; resumes goesOn; timerFires].

(** The same, with the timer ahead of the loop: the run waits for the
    primary column when the request arrives. *)
Definition stopWhileWaitingForColumn : list Action :=
  [startRequest true; resumes goesOn; resumes goesOn; resumes goesOn;
   stopRequest; timerFires; resumes goesOn].

Definition beforeCompletion : list Kind := [started; progress; progress; progress].

End StopScenario.

(** ** Numbers *)

(** A number that is neither NaN nor negative: a zero, a finite number or
    the infinity, with the sign bit clear. *)
Definition nonNegative (x : spec_float) : Prop :=
  match x with
  | S754_zero s | S754_finite s _ _ | S754_infinity s => s = false
  | S754_nan => False
  end.

(** The text starts with a number that [parseFloat] reads: a digit, or a
    point and a digit. *)
Definition startsWithNumber (s : string) : bool :=
  match s with
  | String c rest =>
      isDigit c ||
      (Ascii.eqb c "."%char && match rest with String d _ => isDigit d | EmptyString => false end)
  | EmptyString => false
  end.

(** The cleaned text holds one of the letters [K], [k], [M], [m]. *)
Definition hasSuffixLetter (cleanText : string) : bool :=
  JsString.includes "K" cleanText || JsString.includes "k" cleanText ||
  JsString.includes "M" cleanText || JsString.includes "m" cleanText.

(** A count as it reaches [engagementTotal]: absent, NaN, or non-negative. *)
Definition countLike (count : option spec_float) : Prop :=
  match count with
  | Some x => x = JsNumber.NaN \/ nonNegative x
  | None => True
  end.

(** ** Relative timestamps *)

Fixpoint digitsOnly (s : string) : bool :=
  match s with
  | EmptyString => true
  | String c s' => isDigit c && digitsOnly s'
  end.

(** Somewhere in the text a digit is directly followed by a unit letter. *)
Definition hasRelative (s : string) : Prop :=
  exists before c u after,
    s = before ++ String c (String u after) /\ isDigit c = true /\ isUnit u = true.

(** ** Records and the accumulated map *)

(** A record with an identity and some content. *)
Definition validPost (p : Post) : Prop := id p <> "" /\ (text p <> "" \/ media p <> []).

(** The map holds each post under its own identity, each identity once, and
    only records with content. *)
Definition wellFormed (m : PostMap.t) : Prop :=
  NoDup m.*1 /\ Forall (fun entry => entry.1 = id entry.2 /\ validPost entry.2) m.

(** Two records share an identity or a content hash, in any combination. *)
Definition sharesKey (p q : Post) : Prop :=
  id p = id q \/ id p = createContentHash q \/
  createContentHash p = id q \/ createContentHash p = createContentHash q.

(** The posts that a message carries. *)
Definition messagePosts (m : Message) : list Post :=
  match m with
  | updateProgress posts _ _ | scrapingComplete posts _ _ => posts
  | _ => []
  end.

(** A message whose posts all have content and pairwise distinct
    identities. *)
Definition soundMessage (m : Message) : Prop :=
  Forall validPost (messagePosts m) /\ NoDup (id <$> messagePosts m).

(** The passes that are enough for the loop to end, from a map of [size]
    posts and [empty] empty passes just behind. *)
Definition enoughPasses (limit size empty : Z) : Z := Z.max 1 (2 * (limit - size) - empty).

Module LongRun.

Definition settings : Settings := {| scrollDelay := 2000; maxPosts := 10 |}.

(** Twenty passes are on offer; the feed stays empty. *)
Definition world : World :=
  {| href := "https://x.com/someuser"; firstPage := Quiet.emptyPage;
     passes := repeat (Quiet.pass 0) 20; finalClock := 2700 |}.

End LongRun.

(** ** Statistics *)

(** A post with a timestamp string. *)
Definition stamped (p : Post) : Prop := timestamp p <> "".

Definition timeValue (d : Date) : Z :=
  match d with
  | ValidDate t => t
  | InvalidDate => 0
  end.

Definition isValidDate (d : Date) : Prop :=
  match d with
  | ValidDate _ => True
  | InvalidDate => False
  end.

Definition hasContent (p : Post) : Prop := text p <> "" \/ media p <> [].

Module Dated.

(** Two relative timestamps around a post without any. *)
Definition posts : list Post := [Sample.twoHours; Sample.unstamped; Sample.oneHour].

(** A map of one post whose timestamp no parser accepts. *)
Definition unparsed : Scraper :=
  {| scrapedPosts := [("7", Sample.post "7" "seventh" "ann" "yesterday" 1 0)];
     scrollCount := 1;
     settings := {| scrollDelay := 2000; maxPosts := 100 |} |}.

End Dated.

(** ** Hashes *)

(** The 32-bit value that the loop of [simpleHash] leaves. *)
Definition hashValue (str : string) : Z := fold_left hashStep (JsString.charCodes str) 0.

Module Collision.

(** Two posts that differ in identity and text, with one timestamp and
    author. *)
Definition first : Post := Sample.post "1001" "Aa" "ann" "2h" 1 0.
Definition second : Post := Sample.post "2002" "BB" "ann" "2h" 2 0.

End Collision.

(** ** Runs without a stop request *)

(** An action other than a request: a timer or the run resuming. *)
Definition unrequested (a : Cancellation.Action) : Prop :=
  match a with
  | Cancellation.timerFires | Cancellation.resumes _ => True
  | _ => False
  end.

(** The states of a run that no stop request has reached: no timer is
    armed, a suspended run has the flag set and has sent no completion, and
    a finished one has sent nothing after its completion. *)
Definition unstopped (s : Cancellation.System) : Prop :=
  Cancellation.timers s = O /\
  match Cancellation.run s with
  | Cancellation.idle => Cancellation.sent s = []
  | Cancellation.suspended _ =>
      Cancellation.isScrapingActive s = true /\
      Cancellation.complete ∉ Cancellation.sent s
  | Cancellation.over => Cancellation.completionLast (Cancellation.sent s)
  end.

Module UnstoppedScenario.

Import Cancellation.

(** The second pass finds nothing new for long enough. *)
Definition falls : Finds :=
  {| columnFound := true; maxReached := false; scrollOk := true; quiet := true;
     limited := false |}.

(** The first extraction, then one pass of the loop, which ends it. *)
Definition onePass : list Action :=
  [resumes StopScenario.goesOn; resumes StopScenario.goesOn; resumes StopScenario.goesOn;
   resumes falls; timerFires].

End UnstoppedScenario.

(** ** What the popup is shown during a run *)


(** The later snapshot holds the posts of the earlier one, in place, then
    possibly more, and its scroll count is not smaller. *)
Definition grows (earlier later : list Post * Z) : Prop :=
  earlier.1 `prefix_of` later.1 /\ earlier.2 <= later.2.




(** * Properties *)

(** ** Deduplication *)

Section Deduplication.

Implicit Types (seen : gset string) (posts : list Post) (post : Post).

Lemma removeDuplicatesFrom_cons seen post posts :
  removeDuplicatesFrom seen (post :: posts) =
  if bool_decide (id post ∉ seen) && bool_decide (createContentHash post ∉ seen)
  then post :: removeDuplicatesFrom ({[createContentHash post]} ∪ ({[id post]} ∪ seen)) posts
  else removeDuplicatesFrom seen posts.
Proof. reflexivity. Qed.

(** A survivor is a post of the input whose two keys were not in [seen]. *)
Lemma removeDuplicatesFrom_survivor seen posts post :
  post ∈ removeDuplicatesFrom seen posts ->
  post ∈ posts /\ (id post ∉ seen) /\ (createContentHash post ∉ seen).
Proof.
  revert seen. induction posts as [|p posts IH]; intros seen; simpl.
  - intros H. by apply elem_of_nil in H.
  - destruct (bool_decide (id p ∉ seen)) eqn:Hid;
      destruct (bool_decide (createContentHash p ∉ seen)) eqn:Hhash; simpl.
    + apply bool_decide_eq_true in Hid, Hhash.
      intros Hin. apply elem_of_cons in Hin as [->|Hin].
      * split; [left|done].
      * destruct (IH _ Hin) as (? & Hi & Hh). split; [by right|].
        apply not_elem_of_union in Hi as [_ [_ Hi]%not_elem_of_union].
        apply not_elem_of_union in Hh as [_ [_ Hh]%not_elem_of_union].
        done.
    + intros Hin. destruct (IH _ Hin) as (? & ? & ?). split; [by right|done].
    + intros Hin. destruct (IH _ Hin) as (? & ? & ?). split; [by right|done].
    + intros Hin. destruct (IH _ Hin) as (? & ? & ?). split; [by right|done].
Qed.

Lemma removeDuplicatesFrom_NoDup_id seen posts :
  NoDup (id <$> removeDuplicatesFrom seen posts).
Proof.
  revert seen. induction posts as [|p posts IH]; intros seen; simpl.
  - constructor.
  - destruct (bool_decide (id p ∉ seen) && bool_decide (createContentHash p ∉ seen)); [|done].
    rewrite fmap_cons. apply NoDup_cons. split; [|done].
    intros Hin. apply list_elem_of_fmap in Hin as (q & Heq & Hq).
    apply removeDuplicatesFrom_survivor in Hq as (_ & Hq & _).
    apply not_elem_of_union in Hq as [_ [Hq _]%not_elem_of_union].
    apply Hq, elem_of_singleton. congruence.
Qed.

Lemma removeDuplicatesFrom_NoDup_hash seen posts :
  NoDup (createContentHash <$> removeDuplicatesFrom seen posts).
Proof.
  revert seen. induction posts as [|p posts IH]; intros seen; simpl.
  - constructor.
  - destruct (bool_decide (id p ∉ seen) && bool_decide (createContentHash p ∉ seen)); [|done].
    rewrite fmap_cons. apply NoDup_cons. split; [|done].
    intros Hin. apply list_elem_of_fmap in Hin as (q & Heq & Hq).
    apply removeDuplicatesFrom_survivor in Hq as (_ & _ & Hq).
    apply not_elem_of_union in Hq as [Hq _].
    apply Hq, elem_of_singleton. congruence.
Qed.

Lemma removeDuplicatesFrom_idempotent seen posts :
  removeDuplicatesFrom seen (removeDuplicatesFrom seen posts) =
  removeDuplicatesFrom seen posts.
Proof.
  revert seen. induction posts as [|p posts IH]; intros seen; [done|].
  rewrite removeDuplicatesFrom_cons.
  destruct (bool_decide (id p ∉ seen) && bool_decide (createContentHash p ∉ seen)) eqn:Hnew.
  - rewrite removeDuplicatesFrom_cons, Hnew. by rewrite IH.
  - apply IH.
Qed.

End Deduplication.

(** C10.  [removeDuplicatePosts] is idempotent: applied to its own output it
    returns that output unchanged, for every list of post records. *)
Theorem removeDuplicatePosts_idempotent (posts : list Post) :
  removeDuplicatePosts (removeDuplicatePosts posts) = removeDuplicatePosts posts.
Proof. apply removeDuplicatesFrom_idempotent. Qed.

(** ** Sorting *)

Section ArraySortFacts.

Context {A : Type}.
Variable comparefn : A -> A -> option Z.

Lemma insertSorted_Permutation (a : A) (l : list A) :
  insertSorted comparefn a l ≡ₚ a :: l.
Proof.
  induction l as [|b l IH]; simpl; [done|].
  destruct (staysBefore comparefn a b); [done|].
  rewrite IH. apply Permutation_swap.
Qed.

Lemma arraySort_Permutation (l : list A) : arraySort comparefn l ≡ₚ l.
Proof.
  induction l as [|a l IH]; simpl; [done|].
  rewrite insertSorted_Permutation. by rewrite IH.
Qed.

Lemma arraySort_length (l : list A) : length (arraySort comparefn l) = length l.
Proof. apply Permutation_length, arraySort_Permutation. Qed.

(** When the comparator orders the elements of the array by a key, the
    result is sorted by that key and elements with equal keys keep their
    order. *)
Variable key : A -> Z.
Variable P : A -> Prop.
Hypothesis comparefn_key :
  forall a b, P a -> P b -> (staysBefore comparefn a b = true <-> key a <= key b).

Lemma insertSorted_sorted (a : A) (l : list A) :
  P a -> Forall P l ->
  StronglySorted (byKey key) l -> StronglySorted (byKey key) (insertSorted comparefn a l).
Proof.
  intros Pa Pl Hl. induction Hl as [|b l Hl IH Hb]; simpl.
  - repeat constructor.
  - apply Forall_cons in Pl as [Pb Pl].
    destruct (staysBefore comparefn a b) eqn:Hab.
    + apply comparefn_key in Hab; [|done..].
      constructor; [by constructor|].
      constructor; [done|].
      eapply Forall_impl; [exact Hb|]. unfold byKey. intros c Hc. lia.
    + constructor; [by apply IH|].
      rewrite insertSorted_Permutation. constructor; [|done].
      unfold byKey. destruct (Z.le_gt_cases (key b) (key a)) as [|Hlt]; [done|].
      assert (staysBefore comparefn a b = true) as Habs
        by (apply comparefn_key; [done..|lia]).
      congruence.
Qed.

Lemma arraySort_sorted (l : list A) :
  Forall P l -> StronglySorted (byKey key) (arraySort comparefn l).
Proof.
  induction l as [|a l IH]; simpl; intros Pl.
  - constructor.
  - apply Forall_cons in Pl as [Pa Pl].
    apply insertSorted_sorted; [done| |by apply IH].
    by rewrite arraySort_Permutation.
Qed.

Lemma insertSorted_stable (k : Z) (a : A) (l : list A) :
  P a -> Forall P l ->
  List.filter (keyIs key k) (insertSorted comparefn a l) = List.filter (keyIs key k) (a :: l).
Proof.
  intros Pa Pl. induction l as [|b l IH]; [done|].
  apply Forall_cons in Pl as [Pb Pl]. simpl insertSorted.
  destruct (staysBefore comparefn a b) eqn:Hab; [done|].
  assert (key b < key a) as Hlt.
  { destruct (Z.le_gt_cases (key a) (key b)) as [Hle|]; [|lia].
    apply comparefn_key in Hle; [congruence|done..]. }
  simpl. rewrite (IH Pl). simpl. unfold keyIs.
  destruct (key a =? k) eqn:Ha, (key b =? k) eqn:Hb; try done. lia.
Qed.

Lemma arraySort_stable (k : Z) (l : list A) :
  Forall P l ->
  List.filter (keyIs key k) (arraySort comparefn l) = List.filter (keyIs key k) l.
Proof.
  induction l as [|a l IH]; [done|]. intros Pl.
  apply Forall_cons in Pl as [Pa Pl]. simpl arraySort.
  rewrite insertSorted_stable; [|done|by rewrite arraySort_Permutation].
  simpl. by rewrite IH.
Qed.

End ArraySortFacts.

(** ** The finalizer keeps the records and their keys *)

Section FinalizerFacts.

Variable dateOfString : string -> Date.
Variable now : Z.

(** A view of the posts that does not read [finalOrder] sees the sorted
    array. *)
Lemma sortAndOrderPosts_view {B : Type} (f : Post -> B) (posts : list Post) :
  (forall n p, f (setFinalOrder n p) = f p) ->
  f <$> sortAndOrderPosts dateOfString now posts =
  f <$> arraySort (comparePosts dateOfString now) posts.
Proof.
  intros Hf. unfold sortAndOrderPosts. rewrite fmap_imap.
  erewrite imap_ext; [apply imap_const|].
  intros i p _. apply Hf.
Qed.

Lemma sortAndOrderPosts_finalOrder (posts : list Post) (i : nat) (p : Post) :
  sortAndOrderPosts dateOfString now posts !! i = Some p ->
  finalOrder p = Some (Z.of_nat i + 1).
Proof.
  unfold sortAndOrderPosts. rewrite list_lookup_imap.
  destruct (arraySort _ posts !! i); simpl; [|done].
  by intros [= <-].
Qed.

Lemma sortAndOrderPosts_length (posts : list Post) :
  length (sortAndOrderPosts dateOfString now posts) = length posts.
Proof. unfold sortAndOrderPosts. by rewrite length_imap, arraySort_length. Qed.

Lemma completeScraping_unique_keys s posts scrolls stats :
  completeScraping dateOfString now s = Returns (scrapingComplete posts scrolls stats) ->
  NoDup (id <$> posts) /\ NoDup (createContentHash <$> posts).
Proof.
  unfold completeScraping.
  destruct (getScrapingStats _ _ _ _); [|done]. intros [= <- _ _].
  rewrite !sortAndOrderPosts_view by done.
  rewrite !arraySort_Permutation. split.
  - apply removeDuplicatesFrom_NoDup_id.
  - apply removeDuplicatesFrom_NoDup_hash.
Qed.

End FinalizerFacts.

(** ** What the loop sends *)


Lemma scrapeCurrentPosts_sends s pg s' m :
  scrapeCurrentPosts s pg = Returns (s', m) -> isProgress m.
Proof.
  unfold scrapeCurrentPosts. destruct (primaryColumn pg); [|done].
  by intros [= _ <-].
Qed.

Lemma turn_sends s l p :
  match turn s l p with
  | continue _ _ sent | break _ _ sent => Forall isProgress sent
  | throw _ => True
  end.
Proof.
  unfold turn.
  repeat (case_match; simplify_eq; try done);
    repeat constructor; eauto using scrapeCurrentPosts_sends.
Qed.

Lemma autoScrollFrom_completion dateOfString now passes s l sent ending posts scrolls stats :
  autoScrollFrom dateOfString now s l passes = Some (sent, ending) ->
  scrapingComplete posts scrolls stats ∈ sent ->
  exists s', completeScraping dateOfString now s' =
             Returns (scrapingComplete posts scrolls stats).
Proof.
  revert s l sent. induction passes as [|p passes IH]; intros s l sent; simpl; [done|].
  pose proof (turn_sends s l p) as Hsent.
  destruct (turn s l p) as [s1 l1 sent1|s1 why sent1|e].
  - destruct (autoScrollFrom _ _ s1 l1 passes) as [[sent' ending']|] eqn:Hrest; [|done].
    intros [= <- <-] Hin. apply elem_of_app in Hin as [Hin|Hin].
    + rewrite Forall_forall in Hsent. by apply Hsent in Hin.
    + by eapply IH.
  - destruct (completeScraping _ _ s1) as [done'|e] eqn:Hdone.
    + intros [= <- <-] Hin. apply elem_of_app in Hin as [Hin|Hin].
      * rewrite Forall_forall in Hsent. by apply Hsent in Hin.
      * apply list_elem_of_singleton in Hin as <-. by exists s1.
    + intros [= <- <-] Hin. rewrite Forall_forall in Hsent. by apply Hsent in Hin.
  - intros [= <- <-] Hin. by apply elem_of_nil in Hin.
Qed.

(** C1.  In a completed run, the posts of the completion message have
    pairwise distinct identities and pairwise distinct content hashes. *)
Theorem completed_run_unique_keys dateOfString newSettings w sent posts scrolls stats :
  startScraping dateOfString newSettings w = Some sent ->
  scrapingComplete posts scrolls stats ∈ sent ->
  NoDup (id <$> posts) /\ NoDup (createContentHash <$> posts).
Proof.
  unfold startScraping. intros Hrun Hin.
  assert (exists s', completeScraping dateOfString (finalClock w) s' =
                     Returns (scrapingComplete posts scrolls stats)) as [s' Hs'];
    [|by eapply completeScraping_unique_keys].
  destruct (isXProfilePage (href w)); simpl in Hrun.
  - destruct (scrapeCurrentPosts _ (firstPage w)) as [[s1 m1]|e] eqn:Hfirst.
    + apply scrapeCurrentPosts_sends in Hfirst.
      unfold startAutoScroll in Hrun.
      destruct (autoScrollFrom _ _ s1 _ (passes w)) as [[sent' ending]|] eqn:Hloop; [|done].
      assert (scrapingComplete posts scrolls stats ∈ sent') as Hin'.
      { destruct ending; simplify_eq; set_unfold;
          intuition (simplify_eq; try done). }
      by eapply autoScrollFrom_completion.
    + simplify_eq. set_unfold. intuition (simplify_eq; try done).
  - simplify_eq. set_unfold. intuition (simplify_eq; try done).
Qed.


Lemma StronglySorted_lookup {A : Type} (R : A -> A -> Prop) (l : list A) (i j : nat) (x y : A) :
  StronglySorted R l -> (i < j)%nat -> l !! i = Some x -> l !! j = Some y -> R x y.
Proof.
  intros Hl. revert i j. induction Hl as [|a l Hl IH Ha]; intros i j Hij Hi Hj; [done|].
  destruct j as [|j]; [lia|]. destruct i as [|i]; simpl in *.
  - simplify_eq. rewrite Forall_forall in Ha. apply Ha. by eapply list_elem_of_lookup_2.
  - apply (IH i j); [lia|done..].
Qed.

Lemma filter_fmap_swap {A B : Type} (f : B -> bool) (g : A -> B) (l : list A) :
  List.filter f (g <$> l) = g <$> List.filter (fun a => f (g a)) l.
Proof.
  induction l as [|a l IH]; [done|].
  rewrite fmap_cons. simpl. destruct (f (g a)); [rewrite fmap_cons; f_equal|]; exact IH.
Qed.

Section Ordering.

Variable dateOfString : string -> Date.
Variable now : Z.

Local Abbreviation time := (resolved dateOfString now).
Local Abbreviation compare := (comparePosts dateOfString now).
Local Abbreviation finalize := (sortAndOrderPosts dateOfString now).

Lemma resolved_setFinalOrder n p : time (setFinalOrder n p) = time p.
Proof. reflexivity. Qed.

(** What [sortAndOrderPosts] holds at a position. *)
Lemma sortAndOrderPosts_lookup posts i p :
  finalize posts !! i = Some p ->
  exists p0, arraySort compare posts !! i = Some p0 /\
             p = setFinalOrder (Z.of_nat i + 1) p0.
Proof.
  unfold sortAndOrderPosts. rewrite list_lookup_imap.
  destruct (arraySort _ posts !! i) as [p0|]; simpl; [|done].
  intros [= <-]. by exists p0.
Qed.


Lemma comparePosts_resolved a b :
  is_Some (time a) -> is_Some (time b) ->
  staysBefore compare a b = true <->
  timeKey dateOfString now a <= timeKey dateOfString now b.
Proof.
  unfold staysBefore, comparePosts, timeKey, resolved.
  intros [ta Ha] [tb Hb].
  destruct (parseTimestamp _ _ (timestamp a)) as [[?|]|]; [|done..].
  destruct (parseTimestamp _ _ (timestamp b)) as [[?|]|]; [|done..].
  simplify_eq. simpl. rewrite Z.leb_le. lia.
Qed.

(** Without timestamps the comparator orders by scroll position. *)
Lemma comparePosts_unstamped a b :
  timestamp a = "" -> timestamp b = "" ->
  staysBefore compare a b = true <-> scrollPosition a <= scrollPosition b.
Proof.
  unfold staysBefore, comparePosts. intros -> ->. simpl.
  rewrite Z.leb_le. lia.
Qed.

Lemma erase_sortAndOrderPosts posts :
  eraseFinalOrder <$> finalize posts =
  eraseFinalOrder <$> arraySort compare posts.
Proof. by apply sortAndOrderPosts_view. Qed.

End Ordering.

(** C6 (as amended).  [sortAndOrderPosts] returns the records it was given,
    numbered 1..N by [finalOrder] along the returned order.  When every
    record has a resolved timestamp, a record with a later timestamp
    precedes one with an earlier timestamp and records with equal
    timestamps keep their relative order; when no record has a timestamp,
    records are in ascending [scrollPosition] and records with equal
    [scrollPosition] keep their relative order. *)
Theorem sortAndOrderPosts_ordering (dateOfString : string -> Date) (now : Z) (posts : list Post) :
  let out := sortAndOrderPosts dateOfString now posts in
  eraseFinalOrder <$> out ≡ₚ eraseFinalOrder <$> posts /\
  (forall i p, out !! i = Some p -> finalOrder p = Some (Z.of_nat i + 1)) /\
  (Forall (fun p => is_Some (resolved dateOfString now p)) posts ->
     newestFirst dateOfString now out /\
     forall t, List.filter (resolvedAt dateOfString now t) (eraseFinalOrder <$> out) =
               List.filter (resolvedAt dateOfString now t) (eraseFinalOrder <$> posts)) /\
  (Forall (fun p => timestamp p = "") posts ->
     earlierScrollFirst dateOfString now out /\
     forall k, List.filter (scrolledAt k) (eraseFinalOrder <$> out) =
               List.filter (scrolledAt k) (eraseFinalOrder <$> posts)).
Proof.
  intros out. subst out.
  set (compare := comparePosts dateOfString now).
  split; [|split; [|split]].
  - rewrite erase_sortAndOrderPosts. by rewrite arraySort_Permutation.
  - intros i p. apply sortAndOrderPosts_finalOrder.
  - intros Hall.
    pose proof (arraySort_sorted compare (timeKey dateOfString now) _
                  (comparePosts_resolved dateOfString now) posts Hall) as Hsorted.
    split.
    + intros i j p q t1 t2 Hi Hj Hp Hq Hgt.
      apply sortAndOrderPosts_lookup in Hi as (p0 & Hi & ->).
      apply sortAndOrderPosts_lookup in Hj as (q0 & Hj & ->).
      rewrite resolved_setFinalOrder in Hp, Hq.
      destruct (Nat.lt_trichotomy i j) as [?|[->|Hji]]; [done|..].
      * fold compare in Hi, Hj. simplify_eq. lia.
      * pose proof (StronglySorted_lookup _ _ _ _ _ _ Hsorted Hji Hj Hi) as Hle.
        unfold byKey, timeKey in Hle. rewrite Hp, Hq in Hle. lia.
    + intros t. rewrite erase_sortAndOrderPosts, !filter_fmap_swap. f_equal.
      assert (forall l, Forall (fun p => is_Some (resolved dateOfString now p)) l ->
                List.filter (fun a => resolvedAt dateOfString now t (eraseFinalOrder a)) l =
                List.filter (keyIs (timeKey dateOfString now) (- t)) l) as Hview.
      { intros l Hl. apply filter_ext_in. intros a Ha.
        rewrite Forall_forall in Hl. apply list_elem_of_In, Hl in Ha as [ta Ha].
        unfold resolvedAt, keyIs, timeKey.
        change (resolved dateOfString now (eraseFinalOrder a))
          with (resolved dateOfString now a).
        rewrite Ha. destruct (Z.eqb_spec ta t), (Z.eqb_spec (- ta) (- t)); [done|lia..|done]. }
      rewrite !Hview; [|done|by rewrite arraySort_Permutation].
      by eapply arraySort_stable, Hall; apply comparePosts_resolved.
  - intros Hnone.
    pose proof (arraySort_sorted compare scrollPosition _
                  (comparePosts_unstamped dateOfString now) posts Hnone) as Hsorted.
    split.
    + intros i j p q Hi Hj _ Hlt.
      apply sortAndOrderPosts_lookup in Hi as (p0 & Hi & ->).
      apply sortAndOrderPosts_lookup in Hj as (q0 & Hj & ->).
      simpl in Hlt.
      destruct (Nat.lt_trichotomy i j) as [?|[->|Hji]]; [done|..].
      * fold compare in Hi, Hj. simplify_eq. lia.
      * pose proof (StronglySorted_lookup _ _ _ _ _ _ Hsorted Hji Hj Hi) as Hle.
        unfold byKey in Hle. lia.
    + intros k. rewrite erase_sortAndOrderPosts, !filter_fmap_swap. f_equal.
      by eapply (arraySort_stable compare scrollPosition), Hnone;
        apply comparePosts_unstamped.
Qed.


(** C6, counterexample.  Of [twoHours], [unstamped], [oneHour] the sort
    leaves the post of two hours ago before the post of one hour ago: the
    later resolved timestamp does not come first. *)
Lemma sortAndOrderPosts_not_newestFirst :
  ~ newestFirst Sample.noDates Sample.now
      (sortAndOrderPosts Sample.noDates Sample.now
         [Sample.twoHours; Sample.unstamped; Sample.oneHour]).
Proof.
  intros H.
  specialize (H 2%nat 0%nat
                (setFinalOrder 3 Sample.oneHour) (setFinalOrder 1 Sample.twoHours)
                (Sample.now - 3600000) (Sample.now - 7200000)).
  assert (2 < 0)%nat; [|lia].
  apply H; by vm_compute.
Qed.

(** No arrangement of these three posts satisfies both ordering rules: the
    two rules ask for a cycle. *)
Remark ordering_rules_conflict (out : list Post) :
  eraseFinalOrder <$> out ≡ₚ [Sample.twoHours; Sample.unstamped; Sample.oneHour] ->
  ~ (newestFirst Sample.noDates Sample.now out /\
     earlierScrollFirst Sample.noDates Sample.now out).
Proof.
  intros Hperm [Hnew Hscroll].
  assert (forall x, x ∈ [Sample.twoHours; Sample.unstamped; Sample.oneHour] ->
            exists i p, out !! i = Some p /\ eraseFinalOrder p = x) as Hat.
  { intros x Hx. rewrite <- Hperm in Hx.
    apply list_elem_of_fmap in Hx as (p & -> & Hp).
    apply list_elem_of_lookup in Hp as [i Hi]. eauto. }
  destruct (Hat Sample.twoHours) as (ia & a & Ha & Ea); [set_unfold; tauto|].
  destruct (Hat Sample.unstamped) as (ib & b & Hb & Eb); [set_unfold; tauto|].
  destruct (Hat Sample.oneHour) as (ic & c & Hc & Ec); [set_unfold; tauto|].
  assert (forall p, resolved Sample.noDates Sample.now p =
                    resolved Sample.noDates Sample.now (eraseFinalOrder p)) as Hr by done.
  assert (forall p, scrollPosition p = scrollPosition (eraseFinalOrder p)) as Hs by done.
  assert (ic < ia)%nat.
  { apply (Hnew ic ia c a (Sample.now - 3600000) (Sample.now - 7200000));
      [done|done|rewrite (Hr c), Ec; by vm_compute|rewrite (Hr a), Ea; by vm_compute|by vm_compute]. }
  assert (ia < ib)%nat.
  { apply (Hscroll ia ib a b);
      [done|done|right; rewrite (Hr b), Eb; by vm_compute|rewrite (Hs a), (Hs b), Ea, Eb; by vm_compute]. }
  assert (ib < ic)%nat.
  { apply (Hscroll ib ic b c);
      [done|done|left; rewrite (Hr b), Eb; by vm_compute|rewrite (Hs b), (Hs c), Eb, Ec; by vm_compute]. }
  lia.
Qed.

Lemma completed_run_unique_keys_witness :
  NoDup (id <$> TwoCopies.posts) /\ NoDup (createContentHash <$> TwoCopies.posts).
Proof.
  apply (completed_run_unique_keys Sample.noDates TwoCopies.settings TwoCopies.world
           TwoCopies.sent TwoCopies.posts 2 TwoCopies.stats).
  - reflexivity.
  - vm_compute. do 5 apply list_elem_of_further. apply list_elem_of_here.
Defined.

(** ** Admission *)

Lemma PostMap_has_keys (key : string) (m : PostMap.t) :
  PostMap.has key m = true <-> key ∈ m.*1.
Proof.
  unfold PostMap.has. induction m as [|[k v] m IH]; simpl.
  - split; [done|]. intros H. by apply elem_of_nil in H.
  - rewrite orb_true_iff, IH, elem_of_cons, String.eqb_eq. intuition congruence.
Qed.

Lemma truthy_nonempty (s : string) : JsString.truthy s = true <-> s <> "".
Proof. by destruct s. Qed.

(** C2, counterexample.  With [original] admitted, [reappeared] has the
    same content hash under another identity, and is admitted. *)
Lemma admits_seen_content_hash :
  let m := admitPost [] Sample.original in
  createContentHash Sample.reappeared ∈ (createContentHash <$> PostMap.values m) /\
  admits m Sample.reappeared = true.
Proof. split; [|reflexivity]. vm_compute. left. Qed.

(** C2 (as amended).  The per-pass admission accepts a record exactly when
    its identity is non-empty and is not yet a key of the accumulated map;
    an accepted record is added at the end of the map under its identity,
    a rejected one leaves the map as it is.  The content hash plays no
    part. *)
Theorem admits_iff_new_identity (m : PostMap.t) (post : Post) :
  (admits m post = true <-> id post <> "" /\ id post ∉ m.*1) /\
  admitPost m post = if admits m post then (m ++ [(id post, post)])%list else m.
Proof.
  split.
  - unfold admits. rewrite andb_true_iff, negb_true_iff.
    by rewrite <- not_true_iff_false, PostMap_has_keys, truthy_nonempty.
  - unfold admitPost, admits, PostMap.set.
    destruct (JsString.truthy (id post)); simpl; [|done].
    by destruct (PostMap.has (id post) m).
Qed.

(** ** The [order] field *)

(** Every post extracted in a pass gets the size of the map at the start of
    the pass, plus one. *)
Lemma extractPostsFromDOM_order (s : Scraper) (pg : Page) (post : Post) :
  post ∈ extractPostsFromDOM s pg -> order post = PostMap.size (scrapedPosts s) + 1.
Proof.
  unfold extractPostsFromDOM. intros Hin.
  apply list_elem_of_omap in Hin as (element & _ & Hpost).
  unfold extractPostData in Hpost.
  destruct (negb _ && _); [done|].
  destruct (isValidPostData _); by simplify_eq.
Qed.


(** C3, at the failing input.  A first view with two posts admits both, and
    both carry [order] 1. *)
Theorem order_shared_in_first_view :
  FirstView.admitted = [("1001", 1); ("1002", 1)].
Proof. reflexivity. Qed.

(** ** Hashing and addresses *)

Example simpleHash_hello : simpleHash "hello" = "99162322".
Proof. reflexivity. Qed.

Example isXProfilePage_examples :
  isXProfilePage "https://x.com/someuser" = true /\
  isXProfilePage "https://x.com/someuser/" = true /\
  isXProfilePage "https://x.com/" = false /\
  isXProfilePage "https://x.com/someuser/status/123" = false.
Proof. repeat split. Qed.

(** ** Engagement counts *)

Example parseCount_thousands : parseCount "1.2K" = JsNumber.ofZ 1200.
Proof. reflexivity. Qed.

Example parseCount_millions : parseCount "3M" = JsNumber.ofZ 3000000.
Proof. reflexivity. Qed.

Example parseCount_plain : parseCount "47" = JsNumber.ofZ 47.
Proof. reflexivity. Qed.

Example parseCount_empty : parseCount "" = JsNumber.ofZ 0.
Proof. reflexivity. Qed.

Example parseCount_words : parseCount "replies" = JsNumber.ofZ 0.
Proof. reflexivity. Qed.

Example parseCount_rounding : parseCount "1.005K" = JsNumber.ofZ 1004.
Proof. reflexivity. Qed.

(** Whatever the text, a cleaned form with a thousands letter and no
    leading number gives NaN. *)
Lemma parseCount_NaN (text : string) :
  text <> "" ->
  JsString.includes "K" (filterChars countChar text) ||
  JsString.includes "k" (filterChars countChar text) = true ->
  parseFloat (filterChars countChar text) = JsNumber.NaN ->
  parseCount text = JsNumber.NaN.
Proof.
  intros Htext Hk Hnan. unfold parseCount.
  destruct text; [done|]. cbn [JsString.truthy negb].
  by rewrite Hk, Hnan.
Qed.

(** C4, at the failing input.  A text whose cleaned form has a suffix letter
    and no digit before it is parsed to NaN. *)
Theorem parseCount_suffix_only :
  parseCount "K" = JsNumber.NaN /\ parseCount "m" = JsNumber.NaN /\
  parseCount "Like" = JsNumber.NaN.
Proof. repeat split. Qed.

(** ** Timestamps *)

(** A non-empty timestamp never resolves to [null]. *)
Lemma parseTimestamp_not_null dateOfString now (timestamp : string) :
  timestamp <> "" -> is_Some (parseTimestamp dateOfString now timestamp).
Proof.
  intros Hne. unfold parseTimestamp.
  destruct timestamp; [done|]. simpl JsString.truthy. simpl negb. cbv iota.
  repeat case_match; eauto.
Qed.

(** C7, at the failing input.  For a string that the host's date parser
    rejects and that is neither ISO-like nor relative, the result is the
    Invalid Date object, not [null]. *)
Theorem parseTimestamp_unparseable (dateOfString : string -> Date) (now : Z) :
  dateOfString "yesterday" = InvalidDate ->
  parseTimestamp dateOfString now "yesterday" = Some InvalidDate.
Proof. intros H. unfold parseTimestamp. simpl. by rewrite H. Qed.

Lemma parseTimestamp_unparseable_witness :
  parseTimestamp Sample.noDates Sample.now "yesterday" = Some InvalidDate.
Proof. apply (parseTimestamp_unparseable Sample.noDates Sample.now). reflexivity. Defined.

(** ** When the loop stops *)


Lemma steady_initial : steady initialLocals.
Proof. by left. Qed.

Lemma trackSilence_steady l l' newPostsFound clock :
  steady l -> trackSilence l newPostsFound clock = Some l' ->
  consecutiveEmptyScrolls l' < maxConsecutiveEmptyScrolls -> steady l'.
Proof.
  unfold trackSilence, maxConsecutiveEmptyScrolls.
  intros [[Hc Hs]|[Hc [start Hs]]]; rewrite Hs;
    destruct (newPostsFound =? 0); try destruct (5000 <=? _);
    intros [= <-]; simpl; rewrite ?Hc; intros Hlt; try lia;
    solve [by left | right; eauto].
Qed.

(** [steady] is an invariant of the loop. *)
Lemma turn_steady s l p s' l' sent :
  steady l -> turn s l p = continue s' l' sent -> steady l'.
Proof.
  intros Hl. unfold turn.
  repeat (case_match; try done). intros [= <- <- <-].
  eapply trackSilence_steady; [done..|].
  by apply Z.leb_gt.
Qed.

(** C5, counterexample.  After one empty pass at clock 0, a second empty
    pass one second later ends the loop, although no 5-second window has
    elapsed and no other condition of the specification holds. *)
Lemma turn_breaks_within_5s :
  turn (Quiet.scraper 0) initialLocals (Quiet.pass 0) =
    continue (Quiet.scraper 1) (Quiet.oneEmptyPass 0) [updateProgress [] 1 ""] /\
  turn (Quiet.scraper 1) (Quiet.oneEmptyPass 0) (Quiet.pass 1000) =
    break (Quiet.scraper 2) tooManyEmptyScrolls [updateProgress [] 2 ""] /\
  ~ claimedStop (Quiet.scraper 1) (Quiet.oneEmptyPass 0) (Quiet.pass 1000).
Proof.
  split; [reflexivity|]. split; [reflexivity|].
  unfold claimedStop. vm_compute. intuition congruence.
Qed.

(** C5 (as amended).  At the head of the loop, and when the extraction does
    not throw, the pass ends the loop exactly when: the active flag is found
    cleared at one of the four checkpoints; or the number of accepted posts
    has reached the maximum, before the scroll or after the extraction; or
    the scroll fails; or the pass admits no new post and the previous pass
    admitted none either, whatever time has elapsed; or the rate-limit probe
    fires. *)
Theorem turn_breaks_iff (s : Scraper) (l : Locals) (p : Pass) :
  steady l -> primaryColumn (page p) = true ->
  (breaks (turn s l p) <-> stops s l p).
Proof.
  intros Hl Hcolumn. unfold stops, afterPass, turn, scrapeCurrentPosts.
  rewrite Hcolumn. cbn [scrapedPosts settings scrolled withPosts].
  set (before := PostMap.size (scrapedPosts s)).
  set (after := PostMap.size (fold_left admitPost _ (scrapedPosts s))).
  set (limit := maxPosts (settings s)).
  assert (forall newPostsFound,
            match trackSilence l newPostsFound (dateNow p) with
            | None => newPostsFound = 0 /\ consecutiveEmptyScrolls l = 1
            | Some l' =>
                (maxConsecutiveEmptyScrolls <=? consecutiveEmptyScrolls l') = true <->
                newPostsFound = 0 /\ consecutiveEmptyScrolls l = 1
            end) as Hsilence.
  { intros n. unfold trackSilence, maxConsecutiveEmptyScrolls.
    destruct (Z.eqb_spec n 0) as [->|Hn];
      destruct Hl as [[Hc Hs]|[Hc [start Hs]]]; rewrite ?Hs; simpl;
      try destruct (5000 <=? _); simpl; rewrite ?Hc, ?Z.leb_le; lia. }
  specialize (Hsilence (after - before)).
  destruct (activeAtHead p), (scrollSucceeds p), (activeAfterScroll p),
    (activeAfterWait p), (rateLimited p), (activeBeforeDelay p),
    (Z.leb_spec limit before) as [Hb|Hb], (Z.leb_spec limit after) as [Ha|Ha];
    simpl; try (split; [intros _|done]; tauto || lia).
  all: destruct (trackSilence l (after - before) (dateNow p)) as [l'|].
  all: try destruct (maxConsecutiveEmptyScrolls <=? consecutiveEmptyScrolls l') eqn:Hmax.
  all: simpl; split; try done.
  all: try (intros _; tauto || (right; right; right; left; lia)).
  all: intros Hstop; exfalso.
  all: assert (~ (after - before = 0 /\ consecutiveEmptyScrolls l = 1)) as Hno
      by (rewrite <- Hsilence; congruence).
  all: intuition (try congruence; try lia).
Qed.

Lemma turn_breaks_iff_witness :
  breaks (turn (Quiet.scraper 1) (Quiet.oneEmptyPass 0) (Quiet.pass 1000)) <->
  stops (Quiet.scraper 1) (Quiet.oneEmptyPass 0) (Quiet.pass 1000).
Proof.
  apply (turn_breaks_iff (Quiet.scraper 1) (Quiet.oneEmptyPass 0) (Quiet.pass 1000)).
  - right. split; [reflexivity|]. exists 0. reflexivity.
  - reflexivity.
Defined.

(** ** An empty feed *)










(** ** Messages after a stop request *)


(** Whenever a stop request reaches a suspended run whose page is in place,
    the run's next step and the timer of the request each send a
    completion. *)
Lemma stop_sends_two_completions (s : Cancellation.System) (a : Cancellation.Await)
      (f : Cancellation.Finds) :
  Cancellation.run s = Cancellation.suspended a ->
  Cancellation.columnFound f = true ->
  exists between,
    Cancellation.sent
      (fold_left Cancellation.step
         [Cancellation.stopRequest; Cancellation.resumes f; Cancellation.timerFires] s) =
    (Cancellation.sent s ++ Cancellation.progress :: between ++
       [Cancellation.complete; Cancellation.complete])%list.
Proof.
  intros Hrun Hcolumn. destruct s as [active r timers sent]. simpl in Hrun. subst r.
  destruct a; simpl; unfold Cancellation.resume, Cancellation.loopHead; simpl;
    rewrite ?Hcolumn; simpl;
    repeat match goal with |- context [if ?b then _ else _] => destruct b; simpl end;
    rewrite <- ?app_assoc; simpl;
    solve [by exists [] | by exists [Cancellation.progress]].
Qed.

(** C8, at the failing input.  A stop request during a run is followed by
    two completion messages, one from the loop and one from the timer of
    [stopScraping]; when the timer comes first, a progress update follows
    the first completion as well. *)
Theorem stop_request_completes_twice :
  Cancellation.sent (Cancellation.exec StopScenario.stopWhileScrolling) =
    (StopScenario.beforeCompletion ++ [Cancellation.complete; Cancellation.complete])%list /\
  Cancellation.sent (Cancellation.exec StopScenario.stopWhileWaitingForColumn) =
    (StopScenario.beforeCompletion ++
     [Cancellation.complete; Cancellation.progress; Cancellation.complete])%list /\
  ~ Cancellation.completionLast
      (Cancellation.sent (Cancellation.exec StopScenario.stopWhileScrolling)).
Proof.
  split; [reflexivity|]. split; [reflexivity|].
  intros Hlast.
  specialize (Hlast StopScenario.beforeCompletion [Cancellation.complete] eq_refl).
  discriminate.
Qed.

(** ** Signs of the numbers *)

Section Rounding.

Local Abbreviation prec := JsNumber.prec.
Local Abbreviation emax := JsNumber.emax.

Lemma shr_1_nonneg (mrs : shr_record) : 0 <= shr_m mrs -> 0 <= shr_m (shr_1 mrs).
Proof. destruct mrs as [[|[p|p|]|p] r s]; simpl; lia. Qed.

Lemma iter_shr_1_nonneg (n : positive) (mrs : shr_record) :
  0 <= shr_m mrs -> 0 <= shr_m (SpecFloat.iter_pos shr_1 n mrs).
Proof.
  revert mrs. induction n as [n IH|n IH|]; intros mrs Hm; simpl.
  - apply IH, IH. by apply shr_1_nonneg.
  - by apply IH, IH.
  - by apply shr_1_nonneg.
Qed.

Lemma shr_fexp_nonneg (m e : Z) (l : location) :
  0 <= m -> 0 <= shr_m (fst (shr_fexp prec emax m e l)).
Proof.
  intros Hm. unfold shr_fexp, shr.
  assert (shr_m (shr_record_of_loc m l) = m) as Hrec by (by destruct l as [|[]]).
  destruct (fexp prec emax (Zdigits2 m + e) - e); cbn [fst]; rewrite <- Hrec in Hm; try done.
  by apply iter_shr_1_nonneg.
Qed.

(** Rounding a non-negative mantissa never gives NaN and keeps the sign. *)
Lemma binary_round_aux_sign (sx : bool) (mx ex : Z) (lx : location) :
  0 <= mx ->
  match binary_round_aux prec emax sx mx ex lx with
  | S754_zero s | S754_finite s _ _ | S754_infinity s => s = sx
  | S754_nan => False
  end.
Proof.
  intros Hm. unfold binary_round_aux.
  pose proof (shr_fexp_nonneg mx ex lx Hm) as H1.
  destruct (shr_fexp prec emax mx ex lx) as [mrs' e']. simpl in H1.
  set (m1 := round_nearest_even (shr_m mrs') (loc_of_shr_record mrs')).
  assert (0 <= m1) as Hm1.
  { unfold m1, round_nearest_even.
    destruct (loc_of_shr_record mrs') as [|[]]; try destruct (Z.even _); lia. }
  pose proof (shr_fexp_nonneg m1 e' loc_Exact Hm1) as H2.
  destruct (shr_fexp prec emax m1 e' loc_Exact) as [mrs'' e'']. simpl in H2.
  destruct (shr_m mrs''); [done| |lia].
  by destruct (e'' <=? emax - prec).
Qed.

Lemma binary_normalize_nonneg (m e : Z) :
  0 <= m -> nonNegative (binary_normalize prec emax m e false).
Proof.
  intros Hm. destruct m as [|p|p]; [done| |lia]. simpl. unfold binary_round.
  destruct (shl_align p e _) as [mz ez].
  pose proof (binary_round_aux_sign false (Zpos mz) ez loc_Exact) as H.
  unfold nonNegative. destruct (binary_round_aux _ _ _ _ _ _); by apply H.
Qed.

Lemma ofZ_nonneg (z : Z) : 0 <= z -> nonNegative (JsNumber.ofZ z).
Proof. apply binary_normalize_nonneg. Qed.

Lemma ofDecimal_nonneg (m : Z) (k : nat) : nonNegative (JsNumber.ofDecimal m k).
Proof.
  unfold JsNumber.ofDecimal. destruct m as [|p|p]; [done| |done].
  unfold SFdiv, SFdiv_core_binary.
  set (m' := match _ - _ - _ with Z.pos _ => _ | Z0 => _ | Z.neg _ => _ end).
  assert (0 <= m') as Hm'.
  { unfold m'. destruct (_ - _ - _); [lia| |lia]. apply Z.shiftl_nonneg. lia. }
  pose proof (Z.div_pos m' (Z.pos (JsNumber.pow10 k)) Hm' ltac:(lia)) as Hq.
  unfold Z.div in Hq. destruct (Z.div_eucl m' _) as [q r]. simpl in Hq.
  pose proof (binary_round_aux_sign (xorb false false) q
                (Z.min (fexp prec emax (Zdigits2 (Z.pos p) + 0 -
                                        (Zdigits2 (Z.pos (JsNumber.pow10 k)) + 0))) (0 - 0))
                (new_location (Z.pos (JsNumber.pow10 k)) r) Hq) as H.
  unfold nonNegative. destruct (binary_round_aux _ _ _ _ _ _); by apply H.
Qed.

(** Multiplying by a positive finite number. *)
Lemma mul_nonneg (x : spec_float) (m : positive) (e : Z) :
  nonNegative x -> nonNegative (JsNumber.mul x (S754_finite false m e)).
Proof.
  destruct x as [s|s| |s mx ex]; simpl; try done; intros ->; try done.
  pose proof (binary_round_aux_sign (xorb false false) (Z.pos (mx * m)) (ex + e) loc_Exact
                ltac:(lia)) as H.
  unfold nonNegative. destruct (binary_round_aux _ _ _ _ _ _); by apply H.
Qed.

Lemma floor_nonneg (x : spec_float) : nonNegative x -> nonNegative (JsNumber.floor x).
Proof.
  destruct x as [s|s| |s m e]; simpl; try done. intros ->.
  destruct (0 <=? e); [done|].
  apply binary_normalize_nonneg. simpl. apply Z.shiftr_nonneg. lia.
Qed.

Lemma add_nonneg (x y : spec_float) :
  nonNegative x -> nonNegative y -> nonNegative (Popup.add x y).
Proof.
  destruct x as [sx|sx| |sx mx ex], y as [sy|sy| |sy my ey];
    unfold Popup.add, SFadd; cbn [nonNegative]; try done;
    intros -> ->; [done..|].
  apply binary_normalize_nonneg. unfold cond_Zopp. lia.
Qed.

End Rounding.

(** ** Reading digits *)

Lemma digitValue_nonneg (c : ascii) : isDigit c = true -> 0 <= digitValue c.
Proof. unfold isDigit, digitValue. intros [H _]%andb_true_iff. apply Z.leb_le in H. lia. Qed.

Lemma takeDigits_value_nonneg (s : string) (acc : Z) (n : nat) :
  0 <= acc -> 0 <= (takeDigits acc n s).1.1.
Proof.
  revert acc n. induction s as [|c s IH]; intros acc n Hacc; simpl; [done|].
  destruct (isDigit c) eqn:Hc; [|done].
  apply IH. pose proof (digitValue_nonneg c Hc). lia.
Qed.

Lemma takeDigits_count (s : string) (acc : Z) (n : nat) :
  (n <= (takeDigits acc n s).1.2)%nat.
Proof.
  revert acc n. induction s as [|c s IH]; intros acc n; simpl; [done|].
  destruct (isDigit c); [|done]. specialize (IH (10 * acc + digitValue c) (S n)). lia.
Qed.

(** No digit is read exactly when the text does not start with one. *)
Lemma takeDigits_none (s : string) (acc : Z) :
  (takeDigits acc 0 s).1.2 = 0%nat <->
  match s with String c _ => isDigit c = false | EmptyString => True end.
Proof.
  destruct s as [|c s]; simpl; [done|].
  destruct (isDigit c); [|done].
  pose proof (takeDigits_count s (10 * acc + digitValue c) 1). split; [lia|done].
Qed.

Lemma takeDigits_stops (s : string) (acc : Z) (n : nat) :
  match (takeDigits acc n s).2 with
  | String c _ => isDigit c = false
  | EmptyString => True
  end.
Proof.
  revert acc n. induction s as [|c s IH]; intros acc n; simpl; [done|].
  destruct (isDigit c) eqn:Hc; [apply IH|done].
Qed.

(** ** Engagement counts: sign and NaN *)

Lemma parseFloat_sign (s : string) :
  if startsWithNumber s then nonNegative (parseFloat s) else parseFloat s = JsNumber.NaN.
Proof.
  unfold parseFloat, startsWithNumber.
  pose proof (takeDigits_none s 0) as Hnone.
  pose proof (takeDigits_stops s 0 0) as Hstop.
  destruct (takeDigits 0 0 s) as [[i ni] r] eqn:Hs. simpl in Hnone, Hstop.
  destruct s as [|c s'].
  - simpl in Hs. by simplify_eq.
  - destruct (isDigit c) eqn:Hc; simpl.
    + assert (ni <> 0%nat) as Hni by (intros ->; destruct Hnone as [H _]; by specialize (H eq_refl)).
      destruct r as [|d r']; [destruct ni; [done|apply ofDecimal_nonneg]|].
      destruct (Ascii.eqb_spec d "."%char) as [->|Hd].
      * pose proof (takeDigits_count r' i ni) as Hcount.
        destruct (takeDigits i ni r') as [[m n] rest]. simpl in Hcount.
        destruct n; [lia|apply ofDecimal_nonneg].
      * assert (match d with "."%char => False | _ => True end) as Hd'.
        { destruct d as [[] [] [] [] [] [] [] []]; try done. }
        destruct ni; [done|].
        destruct d as [[] [] [] [] [] [] [] []]; try done; apply ofDecimal_nonneg.
    + simpl in Hs. rewrite Hc in Hs. simplify_eq.
      destruct (Ascii.eqb_spec c "."%char) as [->|Hd]; simpl.
      * pose proof (takeDigits_none s' 0) as Hnone'.
        destruct (takeDigits 0 0 s') as [[m n] rest]. simpl in Hnone'.
        destruct s' as [|d s'']; simpl.
        -- destruct n; [done|]. by destruct Hnone' as [_ H]; specialize (H I).
        -- destruct (isDigit d) eqn:Hd.
           ++ destruct n; [|apply ofDecimal_nonneg].
              destruct Hnone' as [H _]. by specialize (H eq_refl).
           ++ destruct n; [done|]. destruct Hnone' as [_ H]. by specialize (H eq_refl).
      * destruct c as [[] [] [] [] [] [] [] []]; try done.
Qed.

Lemma scaled_sign (x : spec_float) (k : Z) :
  k = 1000 \/ k = 1000000 ->
  (x = JsNumber.NaN -> JsNumber.floor (JsNumber.mul x (JsNumber.ofZ k)) = JsNumber.NaN) /\
  (nonNegative x -> nonNegative (JsNumber.floor (JsNumber.mul x (JsNumber.ofZ k)))).
Proof.
  intros Hk.
  assert (exists m e, JsNumber.ofZ k = S754_finite false m e) as (m & e & ->).
  { destruct Hk as [->| ->]; eexists _, _; vm_compute; reflexivity. }
  split; [by intros ->|].
  intros Hx. by apply floor_nonneg, mul_nonneg.
Qed.

Lemma parseInt_sign (s : string) :
  nonNegative (JsNumber.orElse (parseInt s) (JsNumber.ofZ 0)).
Proof.
  unfold parseInt. pose proof (takeDigits_value_nonneg s 0 0 ltac:(lia)) as Hi.
  destruct (takeDigits 0 0 s) as [[i ni] r]. simpl in Hi.
  destruct ni; [done|]. unfold JsNumber.orElse.
  pose proof (ofZ_nonneg i Hi). by destruct (JsNumber.ofZ i).
Qed.

Lemma parseCount_NaN_or_nonNegative (text : string) :
  (parseCount text = JsNumber.NaN <->
   text <> "" /\ hasSuffixLetter (filterChars countChar text) = true /\
   startsWithNumber (filterChars countChar text) = false) /\
  (parseCount text <> JsNumber.NaN -> nonNegative (parseCount text)).
Proof.
  unfold parseCount, hasSuffixLetter.
  destruct text as [|c text']; [split; [split; [done|by intros [? _]]|done]|].
  cbn [JsString.truthy negb].
  set (cleanText := filterChars countChar (String c text')).
  pose proof (parseFloat_sign cleanText) as Hfloat.
  pose proof (parseInt_sign cleanText) as Hint.
  assert (forall x, nonNegative x -> x <> JsNumber.NaN) as Hnn by (by intros [] ?).
  destruct (JsString.includes "K" cleanText || JsString.includes "k" cleanText) eqn:HK;
    [|destruct (JsString.includes "M" cleanText || JsString.includes "m" cleanText) eqn:HM].
  - destruct (scaled_sign (parseFloat cleanText) 1000) as [Hnan Hpos]; [by left|].
    destruct (startsWithNumber cleanText).
    + split; [|auto]. split; [intros H; by apply Hnn in H; auto|by intros (_ & _ & ?)].
    + rewrite Hnan by done. split; [|done]. split; [|done]. intros _.
      by repeat split.
  - destruct (scaled_sign (parseFloat cleanText) 1000000) as [Hnan Hpos]; [by right|].
    destruct (startsWithNumber cleanText).
    + split; [|auto]. split; [intros H; by apply Hnn in H; auto|by intros (_ & _ & ?)].
    + rewrite Hnan by done. split; [|done]. split; [|done]. intros _.
      split; [done|]. split; [|done]. simpl. exact HM.
  - split; [|done]. split; [intros H; by apply Hnn in H|].
    intros (_ & H & _). simpl in H. congruence.
Qed.

(** X1.  [parseCount] returns NaN exactly when the text is not empty and its
    cleaned form holds one of the letters [K], [k], [M], [m] without
    starting with a number; in every other case the result is neither NaN
    nor negative. *)
Theorem parseCount_sign (text : string) :
  (parseCount text = JsNumber.NaN <->
   text <> "" /\ hasSuffixLetter (filterChars countChar text) = true /\
   startsWithNumber (filterChars countChar text) = false) /\
  (parseCount text <> JsNumber.NaN -> nonNegative (parseCount text)).
Proof. exact (parseCount_NaN_or_nonNegative text). Qed.

(** ** The engagement total of the popup *)

Lemma parseCount_countLike (text : string) : countLike (Some (parseCount text)).
Proof.
  destruct (parseCount_NaN_or_nonNegative text) as [_ H]. simpl.
  destruct (parseCount text) eqn:E; auto; right; by apply H.
Qed.

Lemma orZero_nonneg (count : option spec_float) :
  countLike count -> nonNegative (Popup.orZero count).
Proof.
  destruct count as [x|]; simpl; [|done]. unfold JsNumber.orElse.
  intros [->|Hx]; [done|]. by destruct x.
Qed.

(** X2.  Whatever counts reach the popup (absent, NaN or non-negative numbers),
    [engagementTotal] is a number that is neither NaN nor negative. *)
Theorem engagementTotal_nonNegative (likes retweets replies : option spec_float) :
  countLike likes -> countLike retweets -> countLike replies ->
  nonNegative (Popup.engagementTotal likes retweets replies).
Proof.
  intros Hl Hr Hp. unfold Popup.engagementTotal.
  by repeat apply add_nonneg; apply orZero_nonneg.
Qed.

Lemma engagementTotal_nonNegative_witness :
  nonNegative (Popup.engagementTotal (Some (parseCount "1.2K")) (Some (parseCount "K")) None).
Proof.
  apply (engagementTotal_nonNegative (Some (parseCount "1.2K")) (Some (parseCount "K")) None).
  - right. reflexivity.
  - left. reflexivity.
  - exact I.
Defined.

(** ** Resolving timestamps *)

(** X3.  [parseTimestamp] returns [null] for the empty string and for no other
    string. *)
Theorem parseTimestamp_null_iff (dateOfString : string -> Date) (now : Z) (timestamp : string) :
  parseTimestamp dateOfString now timestamp = None <-> timestamp = "".
Proof.
  split; [|by intros ->].
  intros Hnull. destruct (decide (timestamp = "")) as [|Hne]; [done|].
  apply (parseTimestamp_not_null dateOfString now) in Hne as [date Hdate]. congruence.
Qed.


(** ** Relative timestamps *)

Lemma isUnit_not_digit (u : ascii) : isUnit u = true -> isDigit u = false.
Proof. destruct u as [[] [] [] [] [] [] [] []]; by vm_compute. Qed.

Lemma append_empty_l (s : string) : "" ++ s = s.
Proof. reflexivity. Qed.

Lemma append_cons (c : ascii) (a b : string) : String c a ++ b = String c (a ++ b).
Proof. reflexivity. Qed.

Lemma append_assoc (a b c : string) : (a ++ b) ++ c = a ++ b ++ c.
Proof.
  induction a as [|x a IH]; [done|]. by rewrite !append_cons, IH.
Qed.

(** The digits read, as a prefix of the text. *)
Lemma takeDigits_split (s : string) (acc : Z) (n : nat) :
  exists ds, s = ds ++ (takeDigits acc n s).2 /\ digitsOnly ds = true /\
             (takeDigits acc n s).1.2 = (n + String.length ds)%nat.
Proof.
  revert acc n. induction s as [|c s IH]; intros acc n; simpl.
  - exists "". by rewrite Nat.add_0_r.
  - destruct (isDigit c) eqn:Hc.
    + destruct (IH (10 * acc + digitValue c) (S n)) as (ds & Hs & Hds & Hn).
      exists (String c ds). cbn [String.append digitsOnly String.length].
      rewrite Hc, Hds, Hn. split; [exact (f_equal (String c) Hs)|]. split; [done|lia].
    + exists "". by rewrite Nat.add_0_r.
Qed.

Lemma substring_prefix (a b : string) : substring 0 (String.length a) (a ++ b) = a.
Proof.
  induction a as [|c a IH]; [by destruct b|].
  rewrite append_cons. simpl. by rewrite IH.
Qed.

Lemma relativeMatch_sound (s digits : string) (u : ascii) :
  relativeMatch s = Some (digits, u) ->
  digits <> "" /\ digitsOnly digits = true /\ isUnit u = true /\
  exists before after, s = before ++ digits ++ String u after.
Proof.
  induction s as [|c s IH]; [done|]. cbn [relativeMatch].
  assert (relativeMatch s = Some (digits, u) ->
          digits <> "" /\ digitsOnly digits = true /\ isUnit u = true /\
          exists before after, String c s = before ++ digits ++ String u after) as Hrest.
  { intros H. destruct (IH H) as (? & ? & ? & before & after & ->).
    repeat split; try done. by exists (String c before), after. }
  destruct (isDigit c) eqn:Hc; [|done].
  destruct (takeDigits_split (String c s) 0 0) as (ds & Hs & Hds & Hn).
  destruct (takeDigits 0 0 (String c s)) as [[v n] r]. simpl in Hs, Hn. subst n.
  destruct r as [|u' r']; [done|].
  destruct (isUnit u') eqn:Hu; [|done].
  rewrite Hs, substring_prefix. intros [= <- <-].
  repeat split; try done.
  - intros ->. rewrite ?append_cons, ?append_empty_l in Hs. simplify_eq. apply isUnit_not_digit in Hu. congruence.
  - by exists "", r'.
Qed.

Lemma relativeMatch_complete (s : string) : hasRelative s -> is_Some (relativeMatch s).
Proof.
  induction s as [|h s IH]; intros (before & c & u & after & Hs & Hc & Hu).
  - by destruct before.
  - cbn [relativeMatch].
    destruct before as [|b before'].
    + rewrite append_empty_l in Hs. injection Hs as -> ->.
      rewrite Hc. cbn [takeDigits]. rewrite Hc. cbn [takeDigits].
      rewrite (isUnit_not_digit u Hu), Hu. done.
    + rewrite append_cons in Hs. injection Hs as -> ->.
      assert (is_Some (relativeMatch (before' ++ String c (String u after)))) as Hlater
        by (apply IH; by exists before', c, u, after).
      destruct (isDigit b); [|done].
      destruct (takeDigits 0 0 _) as [[v n] [|u' r']]; [done|].
      by destruct (isUnit u').
Qed.

(** X4.  A timestamp is read as relative exactly when a digit is directly
    followed by one of [s], [m], [h], [d] somewhere in it; the match is then
    a non-empty run of digits and the unit letter that follows it in the
    text. *)
Theorem relativeMatch_iff (s : string) :
  (is_Some (relativeMatch s) <-> hasRelative s) /\
  (forall digits u,
     relativeMatch s = Some (digits, u) ->
     digits <> "" /\ digitsOnly digits = true /\ isUnit u = true /\
     exists before after, s = before ++ digits ++ String u after).
Proof.
  split; [|intros digits u; apply relativeMatch_sound].
  split; [|apply relativeMatch_complete].
  intros [[digits u] Hm].
  destruct (relativeMatch_sound s digits u Hm) as (Hne & Hds & Hu & before & after & ->).
  destruct digits as [|d digits]; [done|]. clear Hne Hm.
  revert d before Hds. induction digits as [|d' digits IH]; intros d before Hds.
  - simpl in *. rewrite andb_true_r in Hds. by exists before, d, u, after.
  - simpl in Hds. apply andb_true_iff in Hds as [_ Hds].
    destruct (IH d' (before ++ String d "") Hds) as (b & c & u0 & a & Heq & ? & ?).
    exists b, c, u0, a. split; [|done]. rewrite <- Heq.
    by rewrite append_assoc.
Qed.

(** ** Profile addresses *)

Lemma dropPrefix_Some (p s rest : string) : dropPrefix p s = Some rest <-> s = p ++ rest.
Proof.
  revert s. induction p as [|a p IH]; intros s.
  - rewrite append_empty_l. simpl. split; congruence.
  - rewrite append_cons. destruct s as [|b s]; simpl; [done|].
    destruct (Ascii.eqb_spec a b) as [->|Hab].
    + rewrite IH. split; congruence.
    + split; [done|]. congruence.
Qed.

Lemma includes_slash_cons (c : ascii) (s : string) :
  JsString.includes "/" (String c s) = Ascii.eqb "/"%char c || JsString.includes "/" s.
Proof.
  cbn [JsString.includes JsString.startsWith]. by destruct (Ascii.eqb "/"%char c), s.
Qed.

Lemma oneSegment_cons (nonEmpty : bool) (c : ascii) (s : string) :
  oneSegment nonEmpty (String c s) =
  if Ascii.eqb "/"%char c
  then match s with EmptyString => nonEmpty | _ => false end
  else oneSegment true s.
Proof. destruct c as [[] [] [] [] [] [] [] []]; by destruct s. Qed.

Lemma oneSegment_iff (rest : string) (nonEmpty : bool) :
  oneSegment nonEmpty rest = true <->
  exists segment,
    JsString.includes "/" segment = false /\ (nonEmpty = true \/ segment <> "") /\
    (rest = segment \/ rest = segment ++ "/").
Proof.
  revert nonEmpty. induction rest as [|c rest IH]; intros nonEmpty.
  - simpl. split.
    + intros ->. exists "". by repeat split; auto.
    + intros (segment & _ & [?|Hne] & [<-|Heq]); try done.
      by destruct segment.
  - rewrite oneSegment_cons. destruct (Ascii.eqb_spec "/"%char c) as [<-|Hc].
    + split.
      * destruct rest; [|done]. intros ->. exists "". by repeat split; auto.
      * intros (segment & Hno & Hflag & Heq).
        destruct segment as [|d segment].
        -- destruct Heq as [|Heq]; [done|]. rewrite append_empty_l in Heq.
           injection Heq as ->. by destruct Hflag.
        -- assert (d = "/"%char) as ->
             by (destruct Heq as [Heq|Heq]; rewrite ?append_cons in Heq; congruence).
           by rewrite includes_slash_cons in Hno.
    + rewrite IH. split.
      * intros (segment & Hno & _ & Heq). exists (String c segment).
        rewrite includes_slash_cons, Hno, append_cons.
        destruct (Ascii.eqb_spec "/"%char c); [done|].
        split; [done|]. split; [by right|]. destruct Heq as [->| ->]; auto.
      * intros (segment & Hno & _ & Heq).
        destruct segment as [|d segment].
        -- destruct Heq as [|Heq]; [done|]. rewrite append_empty_l in Heq. congruence.
        -- rewrite includes_slash_cons in Hno. apply orb_false_iff in Hno as [_ Hno].
           exists segment. split; [done|]. split; [by left|].
           rewrite append_cons in Heq. destruct Heq as [Heq|Heq]; injection Heq as _ ->; auto.
Qed.

Lemma oneSegment_false_iff (rest : string) :
  oneSegment false rest = true <->
  exists segment,
    segment <> "" /\ JsString.includes "/" segment = false /\
    (rest = segment \/ rest = segment ++ "/").
Proof.
  rewrite oneSegment_iff. split.
  - intros (segment & ? & [?|?] & ?); [done|]. by exists segment.
  - intros (segment & ? & ? & ?). exists segment. auto.
Qed.

Lemma append_inj_l (p a b : string) : p ++ a = p ++ b -> a = b.
Proof.
  induction p as [|c p IH]; [done|]. rewrite !append_cons. intros [= H]. by apply IH.
Qed.

(** The two hosts give different addresses. *)
Lemma hosts_differ (a b : string) : "https://x.com/" ++ a <> "https://twitter.com/" ++ b.
Proof.
  intros H. apply (f_equal (fun s => substring 8 1 s)) in H. by vm_compute in H.
Qed.

Lemma isXProfilePage_shape (url : string) :
  isXProfilePage url = true <->
  exists host segment,
    (host = "x" \/ host = "twitter") /\
    segment <> "" /\ JsString.includes "/" segment = false /\
    (url = "https://" ++ host ++ ".com/" ++ segment \/
     url = "https://" ++ host ++ ".com/" ++ segment ++ "/").
Proof.
  unfold isXProfilePage.
  destruct (dropPrefix "https://x.com/" url) as [rest|] eqn:Ex;
    [|destruct (dropPrefix "https://twitter.com/" url) as [rest|] eqn:Et].
  - apply dropPrefix_Some in Ex as ->. rewrite oneSegment_false_iff. split.
    + intros (segment & Hne & Hno & Heq). exists "x", segment.
      split; [by left|]. split; [done|]. split; [done|].
      destruct Heq as [->| ->]; [left|right]; reflexivity.
    + intros (host & segment & [->| ->] & Hne & Hno & Heq).
      * exists segment. split; [done|]. split; [done|].
        destruct Heq as [Heq|Heq]; [left|right];
          by apply (append_inj_l "https://x.com/").
      * destruct Heq as [Heq|Heq].
        -- destruct (hosts_differ rest segment Heq).
        -- destruct (hosts_differ rest (segment ++ "/") Heq).
  - clear Ex. apply dropPrefix_Some in Et as ->. rewrite oneSegment_false_iff. split.
    + intros (segment & Hne & Hno & Heq). exists "twitter", segment.
      split; [by right|]. split; [done|]. split; [done|].
      destruct Heq as [->| ->]; [left|right]; reflexivity.
    + intros (host & segment & [->| ->] & Hne & Hno & Heq).
      * destruct Heq as [Heq|Heq]; symmetry in Heq.
        -- destruct (hosts_differ segment rest Heq).
        -- destruct (hosts_differ (segment ++ "/") rest Heq).
      * exists segment. split; [done|]. split; [done|].
        destruct Heq as [Heq|Heq]; [left|right];
          by apply (append_inj_l "https://twitter.com/").
  - split; [done|].
    intros (host & segment & [->| ->] & _ & _ & [Heq|Heq]).
    + assert (dropPrefix "https://x.com/" url = Some segment) as H
        by (by apply dropPrefix_Some). congruence.
    + assert (dropPrefix "https://x.com/" url = Some (segment ++ "/")) as H
        by (by apply dropPrefix_Some). congruence.
    + assert (dropPrefix "https://twitter.com/" url = Some segment) as H
        by (by apply dropPrefix_Some). congruence.
    + assert (dropPrefix "https://twitter.com/" url = Some (segment ++ "/")) as H
        by (by apply dropPrefix_Some). congruence.
Qed.

(** X5.  [isXProfilePage] accepts exactly the addresses [https://x.com/<segment>]
    and [https://twitter.com/<segment>], with an optional final slash, where
    the segment is not empty and holds no slash. *)
Theorem isXProfilePage_iff (url : string) :
  isXProfilePage url = true <->
  exists host segment,
    (host = "x" \/ host = "twitter") /\
    segment <> "" /\ JsString.includes "/" segment = false /\
    (url = "https://" ++ host ++ ".com/" ++ segment \/
     url = "https://" ++ host ++ ".com/" ++ segment ++ "/").
Proof. exact (isXProfilePage_shape url). Qed.

(** X6.  Every address on which the content script starts a run is an X address
    for the background service. *)
Theorem isXProfilePage_isXUrl (url : string) :
  isXProfilePage url = true -> isXUrl url = true.
Proof.
  intros (host & segment & Hhost & _ & _ & Hurl)%isXProfilePage_shape.
  assert (exists rest, url = "https://x.com/" ++ rest \/ url = "https://twitter.com/" ++ rest)
    as (rest & Hrest).
  { destruct Hhost as [->| ->], Hurl as [->| ->]; eexists; (by left) || (by right). }
  unfold isXUrl. destruct Hrest as [->| ->].
  - reflexivity.
  - apply andb_true_iff. split; [reflexivity|]. apply orb_true_iff. right. reflexivity.
Qed.

Lemma isXProfilePage_isXUrl_witness : isXUrl "https://x.com/someuser" = true.
Proof. apply (isXProfilePage_isXUrl "https://x.com/someuser"). reflexivity. Defined.


(** ** What a pass extracts *)

Lemma extractPostData_fields (s : Scraper) (element : Element) (post : Post) :
  extractPostData s element = Some post ->
  id post = generatePostId element /\
  (text post <> "" \/ media post <> []) /\
  order post = PostMap.size (scrapedPosts s) + 1 /\
  scrollPosition post = scrollCount s /\
  finalOrder post = None.
Proof.
  unfold extractPostData.
  destruct (negb (JsString.truthy (extractPostText element)) &&
            (Z.of_nat (length (extractMediaInfo element)) =? 0)) eqn:Hempty; [done|].
  intros [= <-]. simpl. repeat split.
  apply andb_false_iff in Hempty as [Htext|Hmedia].
  - left. apply negb_false_iff in Htext. by apply truthy_nonempty.
  - right. intros Hnil. by rewrite Hnil in Hmedia.
Qed.

Lemma isValidPostData_valid (post : Post) : isValidPostData post = true -> validPost post.
Proof.
  unfold isValidPostData, validPost.
  intros [Hid Hcontent]%andb_true_iff. split; [by apply truthy_nonempty|].
  apply orb_true_iff in Hcontent as [H|H]; apply Z.ltb_lt in H.
  - left. intros Htext. rewrite Htext in H. simpl in H. lia.
  - right. intros Hmedia. rewrite Hmedia in H. simpl in H. lia.
Qed.

Lemma extractPostsFromDOM_posts (s : Scraper) (pg : Page) (post : Post) :
  post ∈ extractPostsFromDOM s pg ->
  validPost post /\
  exists element,
    element ∈ nodes pg /\ isElementVisible element = true /\ isValidPost element = true /\
    extractPostData s element = Some post.
Proof.
  unfold extractPostsFromDOM. intros Hin.
  apply list_elem_of_omap in Hin as (element & Hel & Hpost).
  apply list_elem_of_In, filter_In in Hel as [Hel Hvisible].
  apply andb_true_iff in Hvisible as [? ?].
  destruct (extractPostData s element) as [p|] eqn:Hdata; [|done].
  destruct (isValidPostData p) eqn:Hvalid; [|done]. simplify_eq.
  split; [by apply isValidPostData_valid|].
  exists element. by rewrite list_elem_of_In.
Qed.

(** X7.  Every post that a pass extracts has a non-empty identity and text or
    media, comes from a visible, plausible node of the page, and carries the
    scroll count of the pass and no final order. *)
Theorem extractPostsFromDOM_valid (s : Scraper) (pg : Page) (post : Post) :
  post ∈ extractPostsFromDOM s pg ->
  validPost post /\ scrollPosition post = scrollCount s /\ finalOrder post = None /\
  exists element,
    element ∈ nodes pg /\ isElementVisible element = true /\ isValidPost element = true /\
    id post = generatePostId element.
Proof.
  intros (Hvalid & element & Hel & Hvisible & Hplausible & Hdata)%extractPostsFromDOM_posts.
  apply extractPostData_fields in Hdata as (Hid & _ & _ & Hscroll & Hfinal).
  repeat split; try done; try apply Hvalid. by exists element.
Qed.

Lemma extractPostsFromDOM_valid_witness :
  validPost (Sample.post "1001" "hello" "ann" "2h" 1 0).
Proof.
  apply (extractPostsFromDOM_valid FirstView.scraper FirstView.page
           (Sample.post "1001" "hello" "ann" "2h" 1 0)).
  vm_compute. apply list_elem_of_here.
Defined.

(** ** Admission into the map *)

Lemma admitPost_cases (m : PostMap.t) (post : Post) :
  (admits m post = true /\ admitPost m post = (m ++ [(id post, post)])%list /\
   id post <> "" /\ id post ∉ m.*1) \/
  (admits m post = false /\ admitPost m post = m).
Proof.
  unfold admitPost, admits, PostMap.set.
  destruct (JsString.truthy (id post)) eqn:Hid; simpl; [|by right].
  destruct (PostMap.has (id post) m) eqn:Hhas; simpl; [by right|].
  left. repeat split; [by apply truthy_nonempty|].
  rewrite <- PostMap_has_keys. congruence.
Qed.

(** What a batch of admissions does to the map. *)
Lemma fold_admitPost (posts : list Post) (m : PostMap.t) :
  exists added,
    fold_left admitPost posts m = (m ++ added)%list /\
    Forall (fun entry => entry.1 = id entry.2 /\ entry.2 ∈ posts) added /\
    (NoDup m.*1 -> NoDup ((m ++ added)%list).*1).
Proof.
  revert m. induction posts as [|post posts IH]; intros m; simpl.
  - exists []. by rewrite app_nil_r.
  - destruct (admitPost_cases m post) as [(_ & -> & _ & Hnew)|(_ & ->)].
    + destruct (IH (m ++ [(id post, post)])%list) as (added & -> & Hadded & Hnodup).
      exists ((id post, post) :: added). rewrite <- app_assoc. split; [done|]. split.
      * constructor; [split; [done|left]|].
        eapply Forall_impl; [exact Hadded|]. intros e [? ?]. split; [done|by right].
      * intros Hm. rewrite cons_middle, app_assoc. apply Hnodup.
        rewrite fmap_app. apply NoDup_app. split; [done|]. split; [|apply NoDup_singleton].
        intros k Hk Hk'. apply list_elem_of_singleton in Hk'. by subst.
    + destruct (IH m) as (added & -> & Hadded & Hnodup).
      exists added. split; [done|]. split; [|done].
      eapply Forall_impl; [exact Hadded|]. intros e [? ?]. split; [done|by right].
Qed.

Lemma scrapeCurrentPosts_map (s s' : Scraper) (pg : Page) (m : Message) :
  scrapeCurrentPosts s pg = Returns (s', m) ->
  scrollCount s' = scrollCount s /\ settings s' = settings s /\
  m = sendProgressUpdate s' "" /\
  exists added,
    scrapedPosts s' = (scrapedPosts s ++ added)%list /\
    Forall (fun entry => entry.1 = id entry.2 /\ entry.2 ∈ extractPostsFromDOM s pg) added /\
    (NoDup (scrapedPosts s).*1 -> NoDup (scrapedPosts s').*1).
Proof.
  unfold scrapeCurrentPosts. destruct (primaryColumn pg); [|done].
  intros [= <- <-]. simpl. repeat split.
  destruct (fold_admitPost (extractPostsFromDOM s pg) (scrapedPosts s))
    as (added & -> & Hadded & Hnodup).
  by exists added.
Qed.

Lemma scrapeCurrentPosts_wellFormed (s s' : Scraper) (pg : Page) (m : Message) :
  wellFormed (scrapedPosts s) ->
  scrapeCurrentPosts s pg = Returns (s', m) ->
  wellFormed (scrapedPosts s').
Proof.
  intros [Hkeys Hposts] (_ & _ & _ & added & Hmap & Hadded & Hnodup)%scrapeCurrentPosts_map.
  split; [auto|]. rewrite Hmap. apply Forall_app. split; [done|].
  eapply Forall_impl; [exact Hadded|]. intros e [? Hin]. split; [done|].
  by apply extractPostsFromDOM_posts in Hin as [? _].
Qed.

(** X8.  An extraction only adds to the map: the entries it held stay as they
    are and in place, each new entry holds a post of this pass under its
    own identity, and the scroll count and the settings are untouched. *)
Theorem scrapeCurrentPosts_appends (s s' : Scraper) (pg : Page) (m : Message) :
  scrapeCurrentPosts s pg = Returns (s', m) ->
  scrollCount s' = scrollCount s /\ settings s' = settings s /\
  exists added,
    scrapedPosts s' = (scrapedPosts s ++ added)%list /\
    Forall (fun entry => entry.1 = id entry.2 /\ entry.2 ∈ extractPostsFromDOM s pg) added.
Proof.
  intros (? & ? & _ & added & ? & ? & _)%scrapeCurrentPosts_map.
  split; [done|]. split; [done|]. by exists added.
Qed.

Lemma scrapeCurrentPosts_appends_witness :
  scrollCount (withPosts FirstView.scraper
                 [("1001", Sample.post "1001" "hello" "ann" "2h" 1 0);
                  ("1002", Sample.post "1002" "world" "ann" "1h" 1 0)]) =
    scrollCount FirstView.scraper /\
  settings (withPosts FirstView.scraper
              [("1001", Sample.post "1001" "hello" "ann" "2h" 1 0);
               ("1002", Sample.post "1002" "world" "ann" "1h" 1 0)]) =
    settings FirstView.scraper /\
  exists added,
    scrapedPosts (withPosts FirstView.scraper
                    [("1001", Sample.post "1001" "hello" "ann" "2h" 1 0);
                     ("1002", Sample.post "1002" "world" "ann" "1h" 1 0)]) =
      (scrapedPosts FirstView.scraper ++ added)%list /\
    Forall (fun entry => entry.1 = id entry.2 /\
                         entry.2 ∈ extractPostsFromDOM FirstView.scraper FirstView.page) added.
Proof.
  apply (scrapeCurrentPosts_appends FirstView.scraper _ FirstView.page
           (updateProgress [Sample.post "1001" "hello" "ann" "2h" 1 0;
                            Sample.post "1002" "world" "ann" "1h" 1 0] 0 "")).
  reflexivity.
Defined.

(** X9.  The map stays well formed through an extraction: every identity is a
    key once, every post sits under its own identity and has content. *)
Theorem scrapeCurrentPosts_keeps_wellFormed (s s' : Scraper) (pg : Page) (m : Message) :
  wellFormed (scrapedPosts s) ->
  scrapeCurrentPosts s pg = Returns (s', m) ->
  wellFormed (scrapedPosts s').
Proof. apply scrapeCurrentPosts_wellFormed. Qed.

Lemma scrapeCurrentPosts_keeps_wellFormed_witness :
  wellFormed [("1001", Sample.post "1001" "hello" "ann" "2h" 1 0);
              ("1002", Sample.post "1002" "world" "ann" "1h" 1 0)].
Proof.
  apply (scrapeCurrentPosts_keeps_wellFormed FirstView.scraper
           (withPosts FirstView.scraper
              [("1001", Sample.post "1001" "hello" "ann" "2h" 1 0);
               ("1002", Sample.post "1002" "world" "ann" "1h" 1 0)])
           FirstView.page
           (updateProgress [Sample.post "1001" "hello" "ann" "2h" 1 0;
                            Sample.post "1002" "world" "ann" "1h" 1 0] 0 "")).
  - split; constructor.
  - reflexivity.
Defined.

(** ** What the defensive pass drops *)

Lemma removeDuplicatesFrom_sublist (seen : gset string) (posts : list Post) :
  removeDuplicatesFrom seen posts `sublist_of` posts.
Proof.
  revert seen. induction posts as [|p posts IH]; intros seen; simpl; [done|].
  destruct (_ && _); [by apply sublist_skip|by apply sublist_cons].
Qed.

(** A post of the input is kept, or one of its keys was seen before, or it
    shares a key with a post that is kept. *)
Lemma removeDuplicatesFrom_dropped (seen : gset string) (posts : list Post) (p : Post) :
  p ∈ posts ->
  p ∈ removeDuplicatesFrom seen posts \/
  (id p ∈ seen \/ createContentHash p ∈ seen) \/
  exists q, q ∈ removeDuplicatesFrom seen posts /\ sharesKey p q.
Proof.
  revert seen. induction posts as [|x posts IH]; intros seen Hin.
  - by apply elem_of_nil in Hin.
  - rewrite removeDuplicatesFrom_cons.
    destruct (bool_decide (id x ∉ seen)) eqn:Hid;
      destruct (bool_decide (createContentHash x ∉ seen)) eqn:Hhash; simpl.
    + apply elem_of_cons in Hin as [->|Hin]; [left; left|].
      destruct (IH ({[createContentHash x]} ∪ ({[id x]} ∪ seen)) Hin)
        as [Hkept|[Hseen|(q & Hq & Hshare)]].
      * left. by right.
      * rewrite !elem_of_union, !elem_of_singleton in Hseen.
        unfold sharesKey.
        destruct Hseen as [[?|[?|?]]|[?|[?|?]]]; auto;
          right; right; exists x; (split; [left|]); auto.
      * right. right. exists q. split; [by right|done].
    + apply bool_decide_eq_false in Hhash. apply dec_stable in Hhash.
      apply elem_of_cons in Hin as [->|Hin]; [auto|by apply IH].
    + apply bool_decide_eq_false in Hid. apply dec_stable in Hid.
      apply elem_of_cons in Hin as [->|Hin]; [auto|by apply IH].
    + apply bool_decide_eq_false in Hid. apply dec_stable in Hid.
      apply elem_of_cons in Hin as [->|Hin]; [auto|by apply IH].
Qed.

(** X10.  [removeDuplicatePosts] keeps a subsequence of its input, and drops a
    record only when it shares an identity or a content hash (one with the
    other included) with a record it keeps. *)
Theorem removeDuplicatePosts_keeps (posts : list Post) :
  removeDuplicatePosts posts `sublist_of` posts /\
  forall p, p ∈ posts ->
            p ∈ removeDuplicatePosts posts \/
            exists q, q ∈ removeDuplicatePosts posts /\ sharesKey p q.
Proof.
  split; [apply removeDuplicatesFrom_sublist|].
  intros p Hin.
  destruct (removeDuplicatesFrom_dropped ∅ posts p Hin) as [?|[[H|H]|?]]; auto;
    by apply not_elem_of_empty in H.
Qed.


(** ** What the messages of a run carry *)

Lemma wellFormed_values (m : PostMap.t) :
  wellFormed m ->
  Forall validPost (PostMap.values m) /\ NoDup (id <$> PostMap.values m).
Proof.
  intros [Hkeys Hposts]. unfold PostMap.values.
  assert (id <$> map snd m = m.*1) as ->.
  { clear Hkeys. induction Hposts as [|[k p] m [Hk _] _ IH]; [done|].
    simpl in Hk. change (id p :: (id <$> map snd m) = k :: m.*1).
    by rewrite IH, Hk. }
  split; [|done]. clear Hkeys.
  induction Hposts as [|[k p] m [_ Hp] _ IH]; constructor; done.
Qed.

Lemma sendProgressUpdate_sound (s : Scraper) (text : string) :
  wellFormed (scrapedPosts s) -> soundMessage (sendProgressUpdate s text).
Proof. apply wellFormed_values. Qed.

Lemma sortAndOrderPosts_Forall dateOfString now (P : Post -> Prop) (posts : list Post) :
  (forall n p, P p -> P (setFinalOrder n p)) ->
  Forall P posts -> Forall P (sortAndOrderPosts dateOfString now posts).
Proof.
  intros Hset Hposts. apply Forall_forall. intros p Hp.
  apply list_elem_of_lookup in Hp as [i Hi].
  apply sortAndOrderPosts_lookup in Hi as (p0 & Hi & ->).
  apply Hset. rewrite Forall_forall in Hposts. apply Hposts.
  rewrite <- (arraySort_Permutation (comparePosts dateOfString now)).
  by eapply list_elem_of_lookup_2.
Qed.

Lemma completeScraping_sound dateOfString now (s : Scraper) (done : Message) :
  wellFormed (scrapedPosts s) ->
  completeScraping dateOfString now s = Returns done -> soundMessage done.
Proof.
  intros Hs Hdone.
  assert (exists posts n stats, done = scrapingComplete posts n stats) as (posts & n & stats & ->).
  { unfold completeScraping in Hdone. destruct (getScrapingStats _ _ _ _); [|done].
    simplify_eq. eauto. }
  split; [|by eapply completeScraping_unique_keys].
  unfold completeScraping in Hdone. destruct (getScrapingStats _ _ _ _); [|done].
  injection Hdone as <- _ _. simpl.
  apply sortAndOrderPosts_Forall; [done|].
  apply wellFormed_values in Hs as [Hvalid _].
  rewrite Forall_forall in Hvalid. apply Forall_forall. intros p Hp. apply Hvalid.
  eapply elem_of_sublist; [exact Hp|apply removeDuplicatesFrom_sublist].
Qed.

Lemma turn_wellFormed (s : Scraper) (l : Locals) (p : Pass) :
  wellFormed (scrapedPosts s) ->
  match turn s l p with
  | continue s' _ sent | break s' _ sent =>
      wellFormed (scrapedPosts s') /\ Forall soundMessage sent
  | throw _ => True
  end.
Proof.
  intros Hs. unfold turn.
  destruct (negb (activeAtHead p)); [by split|].
  destruct (maxPosts (settings s) <=? _); [by split|].
  destruct (negb (scrollSucceeds p)); [by split|].
  destruct (negb (activeAfterScroll p)); [by split|].
  destruct (negb (activeAfterWait p)); [by split|].
  destruct (scrapeCurrentPosts (scrolled s) (page p)) as [[s' m]|e] eqn:Hscrape; [|done].
  assert (wellFormed (scrapedPosts s') /\ Forall soundMessage [m]) as Hafter.
  { pose proof (scrapeCurrentPosts_wellFormed (scrolled s) s' (page p) m Hs Hscrape) as Hs'.
    split; [done|]. constructor; [|done].
    apply scrapeCurrentPosts_map in Hscrape as (_ & _ & -> & _).
    by apply sendProgressUpdate_sound. }
  destruct (maxPosts (settings s') <=? _); [done|].
  destruct (trackSilence _ _ _); [|done].
  destruct (maxConsecutiveEmptyScrolls <=? _); [done|].
  destruct (rateLimited p); [done|].
  by destruct (negb (activeBeforeDelay p)).
Qed.

Lemma autoScrollFrom_sound dateOfString now (passes : list Pass) (s : Scraper) (l : Locals)
      (sent : list Message) (ending : Ending) :
  wellFormed (scrapedPosts s) ->
  autoScrollFrom dateOfString now s l passes = Some (sent, ending) ->
  Forall soundMessage sent.
Proof.
  revert s l sent. induction passes as [|p passes IH]; intros s l sent Hs; simpl; [done|].
  pose proof (turn_wellFormed s l p Hs) as Hturn.
  destruct (turn s l p) as [s1 l1 sent1|s1 why sent1|e].
  - destruct Hturn as [Hs1 Hsent1].
    destruct (autoScrollFrom _ _ s1 l1 passes) as [[sent' ending']|] eqn:Hrest; [|done].
    intros [= <- <-]. apply Forall_app. split; [done|]. by eapply IH.
  - destruct Hturn as [Hs1 Hsent1].
    destruct (completeScraping _ _ s1) as [done'|e] eqn:Hdone.
    + intros [= <- <-]. apply Forall_app. split; [done|].
      constructor; [|done]. by eapply completeScraping_sound.
    + by intros [= <- <-].
  - by intros [= <- <-].
Qed.

(** X11.  Every message of a run carries only posts with a non-empty identity and
    with text or media, and no two posts of one message share an
    identity. *)
Theorem run_messages_sound dateOfString newSettings (w : World) (sent : list Message) :
  startScraping dateOfString newSettings w = Some sent ->
  Forall soundMessage sent.
Proof.
  assert (forall e, soundMessage (scrapingError e)) as Herror by (split; constructor).
  assert (wellFormed []) as Hempty by (split; constructor).
  unfold startScraping.
  destruct (negb (isXProfilePage (href w))).
  { intros [= <-]. simpl. by repeat constructor. }
  set (s0 := {| scrapedPosts := []; scrollCount := 0; settings := newSettings |}).
  destruct (scrapeCurrentPosts s0 (firstPage w)) as [[s1 m1]|e] eqn:Hfirst.
  - pose proof (scrapeCurrentPosts_wellFormed s0 s1 _ m1 Hempty Hfirst) as Hs1.
    assert (soundMessage m1) as Hm1.
    { apply scrapeCurrentPosts_map in Hfirst as (_ & _ & -> & _).
      by apply sendProgressUpdate_sound. }
    unfold startAutoScroll.
    destruct (autoScrollFrom _ _ s1 _ (passes w)) as [[sent' ending]|] eqn:Hloop; [|done].
    pose proof (autoScrollFrom_sound _ _ _ _ _ _ _ Hs1 Hloop) as Hsent'.
    destruct ending; intros [= <-];
      repeat first
        [ done
        | apply Forall_nil
        | apply Forall_cons_2; [first [done | split; constructor]|]
        | apply Forall_app_2; [done|] ].
  - intros [= <-].
    repeat first
      [ done
      | apply Forall_nil
      | apply Forall_cons_2; [first [done | split; constructor]|] ].
Qed.

Lemma run_messages_sound_witness : Forall soundMessage TwoCopies.sent.
Proof.
  apply (run_messages_sound Sample.noDates TwoCopies.settings TwoCopies.world).
  reflexivity.
Defined.

(** ** The loop ends *)

Lemma fold_admitPost_size (posts : list Post) (m : PostMap.t) :
  PostMap.size m <= PostMap.size (fold_left admitPost posts m).
Proof.
  destruct (fold_admitPost posts m) as (added & -> & _).
  unfold PostMap.size. rewrite length_app. lia.
Qed.

(** A pass after which the loop goes on has kept the map below the limit
    and has either admitted a post or counted one empty pass. *)
Lemma turn_continue_progress (s s' : Scraper) (l l' : Locals) (p : Pass) (sent : list Message) :
  steady l ->
  turn s l p = continue s' l' sent ->
  settings s' = settings s /\ steady l' /\
  PostMap.size (scrapedPosts s') < maxPosts (settings s) /\
  ((PostMap.size (scrapedPosts s) < PostMap.size (scrapedPosts s') /\
    consecutiveEmptyScrolls l' = 0) \/
   (PostMap.size (scrapedPosts s') = PostMap.size (scrapedPosts s) /\
    consecutiveEmptyScrolls l = 0 /\ consecutiveEmptyScrolls l' = 1)).
Proof.
  intros Hl Hturn. pose proof (turn_steady s l p s' l' sent Hl Hturn) as Hl'.
  revert Hturn. unfold turn.
  destruct (negb (activeAtHead p)); [done|].
  destruct (maxPosts (settings s) <=? _); [done|].
  destruct (negb (scrollSucceeds p)); [done|].
  destruct (negb (activeAfterScroll p)); [done|].
  destruct (negb (activeAfterWait p)); [done|].
  destruct (scrapeCurrentPosts (scrolled s) (page p)) as [[s1 m]|e] eqn:Hscrape; [|done].
  apply scrapeCurrentPosts_map in Hscrape as (_ & Hsettings & _ & added & Hmap & _).
  cbn [scrolled settings scrapedPosts] in Hsettings, Hmap.
  destruct (Z.leb_spec (maxPosts (settings s1)) (PostMap.size (scrapedPosts s1)))
    as [|Hbelow]; [done|].
  destruct (trackSilence l _ (dateNow p)) as [l1|] eqn:Hsilence; [|done].
  destruct (maxConsecutiveEmptyScrolls <=? _) eqn:Hmax; [done|].
  destruct (rateLimited p); [done|].
  destruct (negb (activeBeforeDelay p)); [done|].
  intros [= <- <- <-]. rewrite Hsettings in Hbelow.
  split; [done|]. split; [done|]. split; [done|].
  assert (PostMap.size (scrapedPosts s1) =
          PostMap.size (scrapedPosts s) + Z.of_nat (length added)) as Hsize
    by (rewrite Hmap; unfold PostMap.size; rewrite length_app; lia).
  apply Z.leb_gt in Hmax. unfold maxConsecutiveEmptyScrolls in Hmax.
  revert Hsilence. unfold trackSilence.
  destruct (Z.eqb_spec (PostMap.size (scrapedPosts s1) - PostMap.size (scrapedPosts s)) 0)
    as [Hzero|Hnonzero].
  - destruct Hl as [[Hc Hstart]|[Hc [start Hstart]]]; rewrite Hstart.
    + intros [= <-]. simpl. right. lia.
    + destruct (5000 <=? _); [done|]. intros [= <-]. simpl in Hmax. lia.
  - intros [= <-]. simpl. left. lia.
Qed.

Lemma autoScrollFrom_ends dateOfString now (passes : list Pass) (s : Scraper) (l : Locals) :
  steady l ->
  enoughPasses (maxPosts (settings s)) (PostMap.size (scrapedPosts s))
               (consecutiveEmptyScrolls l) <= Z.of_nat (length passes) ->
  is_Some (autoScrollFrom dateOfString now s l passes).
Proof.
  unfold enoughPasses.
  revert s l. induction passes as [|p passes IH]; intros s l Hl Hlen; simpl.
  - simpl in Hlen. lia.
  - destruct (turn s l p) as [s' l' sent|s' why sent|e] eqn:Hturn.
    + apply turn_continue_progress in Hturn as (Hsettings & Hl' & Hbelow & Hstep); [|done].
      destruct (IH s' l' Hl') as [[sent' ending] ->]; [|done].
      rewrite Hsettings. cbn [length] in Hlen. rewrite Nat2Z.inj_succ in Hlen.
      assert (0 <= consecutiveEmptyScrolls l <= 1) by (destruct Hl as [[-> _]|[-> _]]; lia).
      lia.
    + by destruct (completeScraping _ _ s').
    + done.
Qed.

(** X12.  Whatever the page shows, a run on a profile page ends within
    [max 1 (2 * maxPosts)] passes of the loop: either with an error or with
    its completion. *)
Theorem startScraping_ends dateOfString newSettings (w : World) :
  Z.max 1 (2 * maxPosts newSettings) <= Z.of_nat (length (passes w)) ->
  is_Some (startScraping dateOfString newSettings w).
Proof.
  intros Hlen. unfold startScraping.
  destruct (negb (isXProfilePage (href w))); [done|].
  set (s0 := {| scrapedPosts := []; scrollCount := 0; settings := newSettings |}).
  destruct (scrapeCurrentPosts s0 (firstPage w)) as [[s1 m1]|e] eqn:Hfirst; [|done].
  apply scrapeCurrentPosts_map in Hfirst as (_ & Hsettings & _ & added & Hmap & _).
  destruct (autoScrollFrom_ends dateOfString (finalClock w) (passes w) s1 initialLocals
              steady_initial) as [[sent ending] Hloop].
  { unfold enoughPasses. rewrite Hsettings. simpl.
    pose proof (Zle_0_nat (length (scrapedPosts s1))). unfold PostMap.size. lia. }
  unfold startAutoScroll. fold initialLocals. rewrite Hloop. by destruct ending.
Qed.

Lemma startScraping_ends_witness :
  is_Some (startScraping Sample.noDates LongRun.settings LongRun.world).
Proof.
  apply (startScraping_ends Sample.noDates LongRun.settings LongRun.world).
  simpl. lia.
Defined.


(** ** The statistics of the completion message *)

Lemma last_cons_is_Some {A : Type} (a : A) (l : list A) : is_Some (last (a :: l)).
Proof.
  revert a. induction l as [|b l IH]; intros a; [by eexists|]. exact (IH b).
Qed.

Lemma last_elem_of {A : Type} (l : list A) (z : A) : last l = Some z -> z ∈ l.
Proof.
  rewrite last_lookup. apply list_elem_of_lookup_2.
Qed.

(** In a list sorted by a key, the first element has the least key and the
    last one the greatest. *)
Lemma sorted_ends {A : Type} (key : A -> Z) (first final : A) (rest : list A) (x : A) :
  StronglySorted (byKey key) (first :: rest) ->
  last (first :: rest) = Some final ->
  x ∈ first :: rest -> key first <= key x <= key final.
Proof.
  intros Hsorted Hlast Hx. split.
  - apply StronglySorted_inv in Hsorted as [_ Hfirst].
    apply elem_of_cons in Hx as [->|Hx]; [done|].
    rewrite Forall_forall in Hfirst. by apply Hfirst.
  - rewrite last_lookup in Hlast.
    apply list_elem_of_lookup in Hx as [i Hi].
    pose proof (lookup_lt_Some _ _ _ Hi) as Hlt.
    destruct (decide (i = pred (length (first :: rest)))) as [->|Hne].
    + rewrite Hlast in Hi. by injection Hi as ->.
    + apply (StronglySorted_lookup _ _ i (pred (length (first :: rest))) x final Hsorted);
        [lia|done..].
Qed.

Lemma dateDifference_key (a b : Date) :
  isValidDate a -> isValidDate b ->
  staysBefore (fun a b => dateDifference a b) a b = true <-> timeValue a <= timeValue b.
Proof.
  destruct a as [ta|], b as [tb|]; try done. intros _ _.
  unfold staysBefore. simpl. rewrite Z.leb_le. lia.
Qed.

Lemma count_bounds {A : Type} (f : A -> bool) (l : list A) :
  0 <= count f l <= Z.of_nat (length l).
Proof.
  unfold count. induction l as [|a l IH]; simpl; [lia|].
  destruct (f a); simpl length; lia.
Qed.

Lemma count_cover {A : Type} (f g : A -> bool) (l : list A) :
  Forall (fun a => f a = true \/ g a = true) l ->
  Z.of_nat (length l) <= count f l + count g l.
Proof.
  unfold count. induction 1 as [|a l Ha _ IH]; simpl; [lia|].
  destruct (f a) eqn:Hf, (g a) eqn:Hg; simpl length; lia.
Qed.

Lemma distinctFrom_spec (seen : gset string) (l : list string) :
  NoDup (distinctFrom seen l) /\
  forall x, x ∈ distinctFrom seen l <-> x ∈ l /\ x ∉ seen.
Proof.
  revert seen. induction l as [|a l IH]; intros seen; simpl.
  - split; [constructor|]. intros x. split; [by intros ?%elem_of_nil|].
    by intros [?%elem_of_nil _].
  - destruct (IH seen) as [Hnodup Hin]. destruct (IH ({[a]} ∪ seen)) as [Hnodup' Hin'].
    case_bool_decide as Ha.
    + split; [done|]. intros x. rewrite Hin, elem_of_cons.
      split; [intuition|]. intros [[->|Hx] Hseen]; done.
    + split.
      * constructor; [|done]. rewrite Hin'. intros [_ Hnot]. apply Hnot.
        apply elem_of_union_l. by apply elem_of_singleton.
      * intros x. rewrite !elem_of_cons, Hin', not_elem_of_union, not_elem_of_singleton.
        destruct (decide (x = a)) as [->|Hne]; intuition.
Qed.

Section StatisticsFacts.

Variable dateOfString : string -> Date.
Variable now : Z.

Local Abbreviation resolve := (fun p : Post => parseTimestamp dateOfString now (timestamp p)).
Local Abbreviation ascending := (fun a b : Date => dateDifference a b).

Lemma getDateRange_dates (posts : list Post) (date : Date) :
  date ∈ arraySort ascending (omap resolve posts) <->
  exists p, p ∈ posts /\ stamped p /\ resolve p = Some date.
Proof.
  rewrite arraySort_Permutation, list_elem_of_omap. split.
  - intros (p & Hp & Hdate). exists p. split; [done|]. split; [|done].
    intros Hempty. by rewrite Hempty in Hdate.
  - intros (p & Hp & _ & Hdate). eauto.
Qed.

(** X13.  [getDateRange] returns [null] exactly when no post has a timestamp
    string, whatever the strings of the others are. *)
Theorem getDateRange_null_iff (posts : list Post) :
  getDateRange dateOfString now posts = Returns None <-> Forall (fun p => timestamp p = "") posts.
Proof.
  unfold getDateRange. rewrite Forall_forall. split.
  - intros Hnull p Hp. destruct (decide (timestamp p = "")) as [|Hne]; [done|].
    destruct (parseTimestamp_not_null dateOfString now _ Hne) as [date Hdate].
    assert (date ∈ arraySort ascending (omap resolve posts)) as Hin
      by (apply getDateRange_dates; eauto).
    destruct (arraySort _ _) as [|first rest]; [by apply elem_of_nil in Hin|].
    destruct (last_cons_is_Some first rest) as [final Hfinal]. rewrite Hfinal in Hnull.
    by destruct first, final.
  - intros Hposts.
    assert (omap resolve posts = []) as ->; [|done].
    induction posts as [|p posts IH]; [done|]. simpl.
    rewrite (Hposts p) by apply list_elem_of_here. simpl.
    apply IH. intros q Hq. apply Hposts. by apply list_elem_of_further.
Qed.

(** X14.  When every timestamp string resolves to a valid date and there is at
    least one, the range is returned: its ends are the resolved times of
    two posts, every resolved time lies between them, and the span is
    their difference. *)
Theorem getDateRange_bounds (posts : list Post) :
  Forall (fun p => stamped p -> is_Some (resolved dateOfString now p)) posts ->
  Exists stamped posts ->
  exists range,
    getDateRange dateOfString now posts = Returns (Some range) /\
    Exists (fun p => resolved dateOfString now p = Some (Stats.oldest range)) posts /\
    Exists (fun p => resolved dateOfString now p = Some (Stats.newest range)) posts /\
    Forall (fun p => forall t, resolved dateOfString now p = Some t ->
                               Stats.oldest range <= t <= Stats.newest range) posts /\
    Stats.span range = Stats.newest range - Stats.oldest range.
Proof.
  rewrite Forall_forall, Exists_exists. intros Hvalid (p0 & Hp0 & Hstamped0).
  assert (forall date, date ∈ arraySort ascending (omap resolve posts) ->
                       exists p t, p ∈ posts /\ date = ValidDate t /\
                                   resolved dateOfString now p = Some t) as Hdates.
  { intros date (p & Hp & Hstamped & Hdate)%getDateRange_dates.
    destruct (Hvalid p Hp Hstamped) as [t Ht]. exists p, t. split; [done|].
    unfold resolved in *. rewrite Hdate in Ht |- *. destruct date as [t'|]; [|done].
    by simplify_eq. }
  assert (StronglySorted (byKey timeValue) (arraySort ascending (omap resolve posts)))
    as Hsorted.
  { apply (arraySort_sorted ascending timeValue isValidDate dateDifference_key).
    apply Forall_forall. intros date Hdate.
    rewrite <- (arraySort_Permutation ascending) in Hdate.
    by destruct (Hdates date Hdate) as (p & t & _ & -> & _). }
  assert (forall p t, p ∈ posts -> resolved dateOfString now p = Some t ->
                      ValidDate t ∈ arraySort ascending (omap resolve posts)) as Hback.
  { intros p t Hp Ht. apply getDateRange_dates. exists p. split; [done|].
    unfold resolved, stamped in *. destruct (timestamp p); [done|]. split; [done|].
    destruct (parseTimestamp _ _ _) as [[|]|]; congruence. }
  destruct (Hvalid p0 Hp0 Hstamped0) as [t0 Ht0].
  pose proof (Hback p0 t0 Hp0 Ht0) as Hin0.
  unfold getDateRange.
  destruct (arraySort ascending (omap resolve posts)) as [|first rest] eqn:Hsort;
    [by apply elem_of_nil in Hin0|].
  destruct (last_cons_is_Some first rest) as [final Hfinal]. rewrite Hfinal.
  destruct (Hdates first) as (pf & tf & Hpf & -> & Htf); [apply list_elem_of_here|].
  destruct (Hdates final) as (pl & tl & Hpl & -> & Htl); [by apply last_elem_of|].
  eexists. split; [done|]. cbn [Stats.oldest Stats.newest Stats.span].
  split; [apply Exists_exists; eauto|]. split; [apply Exists_exists; eauto|]. split.
  - apply Forall_forall. intros p Hp t Ht.
    apply (sorted_ends timeValue _ _ _ _ Hsorted Hfinal (Hback p t Hp Ht)).
  - destruct (Z.ltb_spec 1 (Z.of_nat (length (ValidDate tf :: rest)))) as [|Hone]; [done|].
    destruct rest; [|simpl in Hone; lia]. simpl in Hfinal. injection Hfinal as ->. lia.
Qed.

Lemma getDateRange_unresolved (posts : list Post) :
  Forall (fun p => resolved dateOfString now p = None) posts ->
  Exists stamped posts ->
  getDateRange dateOfString now posts = Throws "Invalid time value".
Proof.
  rewrite Forall_forall, Exists_exists. intros Hnone (p0 & Hp0 & Hstamped0).
  destruct (parseTimestamp_not_null dateOfString now _ Hstamped0) as [date0 Hdate0].
  assert (date0 ∈ arraySort ascending (omap resolve posts)) as Hin0
    by (apply getDateRange_dates; eauto).
  unfold getDateRange.
  destruct (arraySort ascending (omap resolve posts)) as [|first rest] eqn:Hsort;
    [by apply elem_of_nil in Hin0|].
  destruct (last_cons_is_Some first rest) as [final Hfinal]. rewrite Hfinal.
  assert (first ∈ arraySort ascending (omap resolve posts)) as Hfirst
    by (rewrite Hsort; apply list_elem_of_here).
  apply getDateRange_dates in Hfirst as (p & Hp & _ & Hdate).
  specialize (Hnone p Hp). unfold resolved in Hnone. rewrite Hdate in Hnone.
  by destruct first.
Qed.

Lemma getScrapingStats_returns (scrolls : Z) (posts : list Post) (stats : Stats.t) :
  getScrapingStats dateOfString now scrolls posts = Returns stats ->
  Stats.totalPosts stats = Z.of_nat (length posts) /\
  Stats.postsWithMedia stats = count (fun p => 0 <? Z.of_nat (length (media p))) posts /\
  Stats.postsWithText stats = count (fun p => 0 <? Z.of_nat (String.length (text p))) posts /\
  Stats.retweets stats = count (fun p => isRetweet (metadata p)) posts /\
  Stats.replies stats = count (fun p => isReply (metadata p)) posts /\
  Stats.threads stats = count (fun p => hasThread (metadata p)) posts /\
  Stats.verified stats = count (fun p => verified (metadata p)) posts /\
  Stats.languages stats =
    distinctFrom ∅ (List.filter JsString.truthy (map (fun p => language (metadata p)) posts)).
Proof.
  unfold getScrapingStats. destruct (getDateRange _ _ _); [|done].
  intros [= <-]. by repeat split.
Qed.

End StatisticsFacts.

Lemma getDateRange_bounds_witness :
  exists range,
    getDateRange Sample.noDates Sample.now Dated.posts = Returns (Some range) /\
    Exists (fun p => resolved Sample.noDates Sample.now p = Some (Stats.oldest range))
           Dated.posts /\
    Exists (fun p => resolved Sample.noDates Sample.now p = Some (Stats.newest range))
           Dated.posts /\
    Forall (fun p => forall t, resolved Sample.noDates Sample.now p = Some t ->
                               Stats.oldest range <= t <= Stats.newest range) Dated.posts /\
    Stats.span range = Stats.newest range - Stats.oldest range.
Proof.
  apply (getDateRange_bounds Sample.noDates Sample.now Dated.posts).
  - repeat constructor.
    + intros _. vm_compute. eauto.
    + intros Hstamped. by destruct Hstamped.
    + intros _. vm_compute. eauto.
  - constructor. vm_compute. discriminate.
Defined.

(** X15.  The finalizer throws, and so sends no completion message, when the map
    is not empty and no post of it has a timestamp that resolves to a valid
    date although each has a timestamp string. *)
Theorem completeScraping_throws dateOfString now (s : Scraper) :
  scrapedPosts s <> [] ->
  Forall (fun p => stamped p /\ resolved dateOfString now p = None)
         (PostMap.values (scrapedPosts s)) ->
  completeScraping dateOfString now s = Throws "Invalid time value".
Proof.
  intros Hne Hposts.
  pose (posts := sortAndOrderPosts dateOfString now
                   (removeDuplicatePosts (PostMap.values (scrapedPosts s)))).
  assert (Forall (fun p => stamped p /\ resolved dateOfString now p = None) posts) as Hall.
  { apply sortAndOrderPosts_Forall; [by intros n p Hp; exact Hp|].
    rewrite Forall_forall in Hposts. apply Forall_forall. intros p Hp. apply Hposts.
    eapply elem_of_sublist; [exact Hp|apply removeDuplicatesFrom_sublist]. }
  assert (posts <> []) as Hsome.
  { intros Hnil. apply (f_equal length) in Hnil. unfold posts in Hnil.
    rewrite sortAndOrderPosts_length in Hnil.
    destruct (scrapedPosts s) as [|[k p] m]; [done|].
    unfold removeDuplicatePosts in Hnil. simpl PostMap.values in Hnil.
    rewrite removeDuplicatesFrom_cons in Hnil.
    rewrite !bool_decide_eq_true_2 in Hnil by apply not_elem_of_empty. done. }
  unfold completeScraping, getScrapingStats. fold posts.
  rewrite getDateRange_unresolved; [done| |].
  - eapply Forall_impl; [exact Hall|]. by intros p [_ Hp].
  - destruct posts as [|q out]; [done|].
    apply Forall_cons in Hall as [[Hq _] _]. by apply Exists_cons_hd.
Qed.

Lemma completeScraping_throws_witness :
  completeScraping Sample.noDates Sample.now Dated.unparsed =
  Throws "Invalid time value".
Proof.
  apply (completeScraping_throws Sample.noDates Sample.now Dated.unparsed).
  - discriminate.
  - repeat constructor. vm_compute. discriminate.
Defined.

(** X16.  In the statistics of a completion, no count exceeds the number of
    posts, and when every post has text or media the posts with media and
    the posts with text together cover all of them. *)
Theorem getScrapingStats_counts dateOfString now (scrolls : Z) (posts : list Post)
        (stats : Stats.t) :
  getScrapingStats dateOfString now scrolls posts = Returns stats ->
  Forall (fun n => 0 <= n <= Stats.totalPosts stats)
         [Stats.postsWithMedia stats; Stats.postsWithText stats; Stats.retweets stats;
          Stats.replies stats; Stats.threads stats; Stats.verified stats] /\
  (Forall hasContent posts ->
   Stats.totalPosts stats <= Stats.postsWithMedia stats + Stats.postsWithText stats).
Proof.
  intros (-> & -> & -> & -> & -> & -> & -> & _)%getScrapingStats_returns. split.
  - repeat constructor; apply count_bounds.
  - intros Hposts. rewrite Z.add_comm. apply count_cover.
    eapply Forall_impl; [exact Hposts|]. intros p [Htext|Hmedia].
    + left. by destruct (text p).
    + right. by destruct (media p).
Qed.

Lemma getScrapingStats_counts_witness :
  Forall (fun n => 0 <= n <= Stats.totalPosts TwoCopies.stats)
         [Stats.postsWithMedia TwoCopies.stats; Stats.postsWithText TwoCopies.stats;
          Stats.retweets TwoCopies.stats; Stats.replies TwoCopies.stats;
          Stats.threads TwoCopies.stats; Stats.verified TwoCopies.stats] /\
  (Forall hasContent TwoCopies.posts ->
   Stats.totalPosts TwoCopies.stats <=
   Stats.postsWithMedia TwoCopies.stats + Stats.postsWithText TwoCopies.stats).
Proof.
  apply (getScrapingStats_counts Sample.noDates Sample.now 2 TwoCopies.posts TwoCopies.stats).
  reflexivity.
Defined.

(** X17.  The languages of the statistics are the non-empty language tags of the
    posts, each listed once. *)
Theorem getScrapingStats_languages dateOfString now (scrolls : Z) (posts : list Post)
        (stats : Stats.t) :
  getScrapingStats dateOfString now scrolls posts = Returns stats ->
  NoDup (Stats.languages stats) /\
  forall tag, tag ∈ Stats.languages stats <->
              tag <> "" /\ exists p, p ∈ posts /\ language (metadata p) = tag.
Proof.
  intros (_ & _ & _ & _ & _ & _ & _ & ->)%getScrapingStats_returns.
  destruct (distinctFrom_spec ∅
              (List.filter JsString.truthy (map (fun p => language (metadata p)) posts)))
    as [Hnodup Hin].
  split; [done|]. intros tag.
  rewrite Hin, list_elem_of_In, filter_In, in_map_iff, truthy_nonempty.
  split.
  - intros [[(p & Hp & Htag) Hne] _]. split; [done|]. exists p.
    by rewrite list_elem_of_In.
  - intros [Hne (p & Hp & Htag)]. split; [|apply not_elem_of_empty].
    split; [|done]. exists p. by rewrite <- list_elem_of_In.
Qed.

Lemma getScrapingStats_languages_witness :
  NoDup (Stats.languages TwoCopies.stats) /\
  forall tag, tag ∈ Stats.languages TwoCopies.stats <->
              tag <> "" /\ exists p, p ∈ TwoCopies.posts /\ language (metadata p) = tag.
Proof.
  apply (getScrapingStats_languages Sample.noDates Sample.now 2 TwoCopies.posts TwoCopies.stats).
  reflexivity.
Defined.


(** ** Hashes *)

Lemma toInt32_range (z : Z) : - 2 ^ 31 <= toInt32 z < 2 ^ 31.
Proof.
  unfold toInt32. pose proof (Z.mod_pos_bound (z + 2 ^ 31) (2 ^ 32)). lia.
Qed.

Lemma fold_hashStep_range (codes : list Z) (hash : Z) :
  - 2 ^ 31 <= hash < 2 ^ 31 ->
  - 2 ^ 31 <= fold_left hashStep codes hash < 2 ^ 31.
Proof.
  revert hash. induction codes as [|c codes IH]; intros hash Hhash; [done|].
  simpl. apply IH. apply toInt32_range.
Qed.

Lemma string_of_uint_digits (d : Decimal.uint) :
  digitsOnly (NilEmpty.string_of_uint d) = true.
Proof.
  induction d; [done|..]; cbn [NilEmpty.string_of_uint digitsOnly]; by rewrite IHd.
Qed.

Lemma ofNat_decimal (z : Z) :
  JsString.ofNat z <> "" /\ digitsOnly (JsString.ofNat z) = true.
Proof.
  unfold JsString.ofNat, NilZero.string_of_uint.
  pose proof (string_of_uint_digits (N.to_uint (Z.to_N z))) as Hdigits.
  destruct (N.to_uint (Z.to_N z)); done.
Qed.

Lemma charCodes_app (a b : string) :
  JsString.charCodes (a ++ b) = (JsString.charCodes a ++ JsString.charCodes b)%list.
Proof.
  induction a as [|c a IH]; [by rewrite append_empty_l|].
  rewrite append_cons. simpl. by rewrite IH.
Qed.

Lemma simpleHash_hashValue (str : string) :
  simpleHash str = JsString.ofNat (Z.abs (hashValue str)).
Proof. reflexivity. Qed.

Lemma hashValue_app (a b rest : string) :
  hashValue a = hashValue b -> hashValue (a ++ rest) = hashValue (b ++ rest).
Proof.
  unfold hashValue. intros Hab. by rewrite !charCodes_app, !fold_left_app, Hab.
Qed.

(** X18.  [simpleHash] returns a decimal numeral, never the empty string, of a
    number between 0 and 2^31. *)
Theorem simpleHash_decimal (str : string) :
  0 <= Z.abs (hashValue str) <= 2 ^ 31 /\
  simpleHash str = JsString.ofNat (Z.abs (hashValue str)) /\
  simpleHash str <> "" /\ digitsOnly (simpleHash str) = true.
Proof.
  split; [|split; [done|apply ofNat_decimal]].
  pose proof (fold_hashStep_range (JsString.charCodes str) 0) as Hrange.
  unfold hashValue. lia.
Qed.

(** X19.  Two posts whose texts leave the hash loop with one value and that
    share timestamp and author are one post to the finalizer, whatever
    their identities: the second is dropped. *)
Theorem removeDuplicatePosts_conflates (p q : Post) :
  hashValue (text p) = hashValue (text q) ->
  timestamp p = timestamp q -> author p = author q ->
  createContentHash p = createContentHash q /\ removeDuplicatePosts [p; q] = [p].
Proof.
  intros Htext Htime Hauthor.
  assert (createContentHash p = createContentHash q) as Hhash.
  { unfold createContentHash. rewrite !simpleHash_hashValue, Htime, Hauthor.
    by rewrite (hashValue_app _ _ _ Htext). }
  split; [done|].
  unfold removeDuplicatePosts. rewrite !removeDuplicatesFrom_cons.
  rewrite !bool_decide_eq_true_2 by apply not_elem_of_empty. cbn [andb].
  rewrite <- Hhash.
  rewrite (bool_decide_eq_false_2 (createContentHash p ∉ _)); [by rewrite andb_false_r|].
  intros Hnot. apply Hnot. apply elem_of_union_l. by apply elem_of_singleton.
Qed.

Lemma removeDuplicatePosts_conflates_witness :
  createContentHash Collision.first = createContentHash Collision.second /\
  removeDuplicatePosts [Collision.first; Collision.second] = [Collision.first].
Proof.
  apply (removeDuplicatePosts_conflates Collision.first Collision.second); reflexivity.
Defined.

(** ** Engagement counts *)

(** X20.  Of the metrics read from a post, [views] is always 0 and each of the
    three counts is NaN or a non-negative number. *)
Theorem extractEngagementMetrics_counts (element : Element) :
  views (extractEngagementMetrics element) = JsNumber.ofZ 0 /\
  countLike (Some (replies (extractEngagementMetrics element))) /\
  countLike (Some (retweets (extractEngagementMetrics element))) /\
  countLike (Some (likes (extractEngagementMetrics element))).
Proof.
  unfold extractEngagementMetrics.
  induction (buttons element) as [|[ariaLabel text] buttons IH] using rev_ind.
  - repeat split; right; reflexivity.
  - rewrite fold_left_app. cbn [fold_left].
    destruct IH as (Hv & Hp & Hr & Hl).
    pose proof (parseCount_countLike text) as Hcount.
    repeat case_match; done.
Qed.

(** ** The error log *)

Lemma slice_length {A : Type} (start : Z) (l : list A) :
  Z.of_nat (length (ErrorHandler.slice start l)) =
  if start <? 0 then Z.min (- start) (Z.of_nat (length l))
  else Z.max 0 (Z.of_nat (length l) - start).
Proof.
  unfold ErrorHandler.slice. rewrite length_drop.
  destruct (Z.ltb_spec start 0); lia.
Qed.

(** X21.  After [logError] the log is the end of the old log followed by the new
    entry: the new entry is last, entries are dropped from the front only,
    and the log holds 100 entries at most. *)
Theorem logError_keeps_last (errors : list ErrorHandler.Entry) (entry : ErrorHandler.Entry) :
  ErrorHandler.logError errors entry `suffix_of` (errors ++ [entry])%list /\
  last (ErrorHandler.logError errors entry) = Some entry /\
  Z.of_nat (length (ErrorHandler.logError errors entry)) =
    Z.min (Z.of_nat (length errors) + 1) ErrorHandler.maxErrors.
Proof.
  unfold ErrorHandler.logError, ErrorHandler.maxErrors.
  destruct (Z.ltb_spec 100 (Z.of_nat (length (errors ++ [entry])))) as [Hover|Hfits].
  - split; [apply suffix_drop|]. split.
    + unfold ErrorHandler.slice. rewrite drop_app_le, last_snoc; [done|].
      rewrite length_app in *. simpl in *. lia.
    + rewrite slice_length. rewrite length_app in *. simpl in *. lia.
  - split; [done|]. split; [apply last_snoc|].
    rewrite length_app in *. simpl in *. lia.
Qed.

(** X22.  [getRecentErrors] returns an end of the log: the last [count] entries
    for a positive [count], but the whole log for [count] 0, and for a
    negative [count] the log without its first [-count] entries. *)
Theorem getRecentErrors_edges (count : Z) (errors : list ErrorHandler.Entry) :
  ErrorHandler.getRecentErrors count errors `suffix_of` errors /\
  Z.of_nat (length (ErrorHandler.getRecentErrors count errors)) =
    (if 0 <? count then Z.min count (Z.of_nat (length errors))
     else Z.max 0 (Z.of_nat (length errors) + count)) /\
  ErrorHandler.getRecentErrors 0 errors = errors.
Proof.
  unfold ErrorHandler.getRecentErrors. split; [apply suffix_drop|]. split.
  - rewrite slice_length.
    destruct (Z.ltb_spec (- count) 0), (Z.ltb_spec 0 count); lia.
  - unfold ErrorHandler.slice. simpl.
    by rewrite Z.min_l by lia.
Qed.

(** ** Selector fallbacks *)

Section SelectorFacts.

Context {E : Type}.
Variable querySelector : string -> Outcome (option E).
Variable querySelectorAll : string -> Outcome (list E).

(** X23.  [findElement] returns the match of the first selector that has one;
    selectors that throw or match nothing are passed over, and the result
    is [null] exactly when every selector is one of those. *)
Theorem findElement_first_match (selectors : list string) :
  (forall element,
      findElement querySelector selectors = Some element <->
      exists before selector after,
        selectors = (before ++ selector :: after)%list /\
        querySelector selector = Returns (Some element) /\
        Forall (fun s => forall e, querySelector s <> Returns (Some e)) before) /\
  (findElement querySelector selectors = None <->
   Forall (fun s => forall e, querySelector s <> Returns (Some e)) selectors).
Proof.
  induction selectors as [|s rest [IHsome IHnone]]; simpl.
  - split; [|done]. intros element. split; [done|].
    intros (before & selector & after & Hsplit & _). by destruct before.
  - split.
    + intros element. split.
      * destruct (querySelector s) as [[e|]|err] eqn:Hs.
        -- intros [= ->]. by exists [], s, rest.
        -- intros (before & selector & after & -> & Hfound & Hbefore)%IHsome.
           exists (s :: before), selector, after. split; [done|]. split; [done|].
           constructor; [|done]. intros e. by rewrite Hs.
        -- intros (before & selector & after & -> & Hfound & Hbefore)%IHsome.
           exists (s :: before), selector, after. split; [done|]. split; [done|].
           constructor; [|done]. intros e. by rewrite Hs.
      * intros (before & selector & after & Hsplit & Hfound & Hbefore).
        destruct before as [|b before]; simpl in Hsplit; injection Hsplit as -> ->.
        -- by rewrite Hfound.
        -- apply Forall_cons in Hbefore as [Hb Hbefore].
           assert (findElement querySelector (before ++ selector :: after) = Some element)
             as Hrest by (apply IHsome; eauto 10).
           destruct (querySelector b) as [[e|]|err] eqn:Hqb; [by destruct (Hb e)|done..].
    + rewrite Forall_cons, <- IHnone.
      destruct (querySelector s) as [[e|]|err]; split; try done.
      * intros [Hs _]. by destruct (Hs e).
      * by intros [_ ?].
      * by intros [_ ?].
Qed.

(** X24.  [findElements] returns the matches of the first selector that has any;
    the result is empty exactly when every selector throws or matches
    nothing. *)
Theorem findElements_first_match (selectors : list string) :
  (forall element elements,
      findElements querySelectorAll selectors = element :: elements <->
      exists before selector after,
        selectors = (before ++ selector :: after)%list /\
        querySelectorAll selector = Returns (element :: elements) /\
        Forall (fun s => forall e es, querySelectorAll s <> Returns (e :: es)) before) /\
  (findElements querySelectorAll selectors = [] <->
   Forall (fun s => forall e es, querySelectorAll s <> Returns (e :: es)) selectors).
Proof.
  induction selectors as [|s rest [IHsome IHnone]]; simpl.
  - split; [|done]. intros element elements. split; [done|].
    intros (before & selector & after & Hsplit & _). by destruct before.
  - split.
    + intros element elements. split.
      * destruct (querySelectorAll s) as [[|e es]|err] eqn:Hs.
        -- intros (before & selector & after & -> & Hfound & Hbefore)%IHsome.
           exists (s :: before), selector, after. split; [done|]. split; [done|].
           constructor; [|done]. intros e es. by rewrite Hs.
        -- intros [= -> ->]. by exists [], s, rest.
        -- intros (before & selector & after & -> & Hfound & Hbefore)%IHsome.
           exists (s :: before), selector, after. split; [done|]. split; [done|].
           constructor; [|done]. intros e es. by rewrite Hs.
      * intros (before & selector & after & Hsplit & Hfound & Hbefore).
        destruct before as [|b before]; simpl in Hsplit; injection Hsplit as -> ->.
        -- by rewrite Hfound.
        -- apply Forall_cons in Hbefore as [Hb Hbefore].
           assert (findElements querySelectorAll (before ++ selector :: after) =
                   element :: elements) as Hrest by (apply IHsome; eauto 10).
           destruct (querySelectorAll b) as [[|e es]|err] eqn:Hqb;
             [done|by destruct (Hb e es)|done].
    + rewrite Forall_cons, <- IHnone.
      destruct (querySelectorAll s) as [[|e es]|err]; split; try done.
      * by intros [_ ?].
      * intros [Hs _]. by destruct (Hs e es).
      * by intros [_ ?].
Qed.

End SelectorFacts.


(** ** Without a stop request the completion is last *)

Lemma completionLast_absent (l : list Cancellation.Kind) :
  Cancellation.complete ∉ l -> Cancellation.completionLast l.
Proof.
  intros Hl before after ->. destruct Hl.
  apply elem_of_app. right. apply list_elem_of_here.
Qed.

Lemma completionLast_snoc (l : list Cancellation.Kind) :
  Cancellation.complete ∉ l -> Cancellation.completionLast (l ++ [Cancellation.complete]).
Proof.
  intros Hl before after Hsplit.
  destruct after as [|x after _] using rev_ind; [done|].
  rewrite app_comm_cons, app_assoc in Hsplit.
  apply app_inj_tail in Hsplit as [-> _]. destruct Hl.
  apply elem_of_app. right. apply list_elem_of_here.
Qed.

Lemma unstopped_step (s : Cancellation.System) (a : Cancellation.Action) :
  unstopped s -> unrequested a -> unstopped (Cancellation.step s a).
Proof.
  destruct s as [active r timers sent]. unfold unstopped. simpl.
  intros [-> Hrun] Ha. destruct a as [| | |f]; try done. simpl.
  destruct r as [|point|]; [done| |done]. destruct Hrun as [-> Hsent].
  assert (Cancellation.complete ∉ (sent ++ [Cancellation.progress])%list) as Hsent'.
  { rewrite not_elem_of_app. split; [done|]. by intros [?|?%elem_of_nil]%elem_of_cons. }
  assert (Cancellation.complete ∉
            (sent ++ [Cancellation.error; Cancellation.error])%list) as Herror.
  { rewrite not_elem_of_app. split; [done|].
    by intros [?|[?|?%elem_of_nil]%elem_of_cons]%elem_of_cons. }
  destruct point; unfold Cancellation.resume, Cancellation.loopHead; simpl;
    repeat match goal with |- context [if ?b then _ else _] => destruct b; simpl end;
    (split; [done|]);
    first [ by apply completionLast_snoc
          | by apply completionLast_absent
          | done ].
Qed.

Lemma unstopped_exec (actions : list Cancellation.Action) (s : Cancellation.System) :
  unstopped s -> Forall unrequested actions ->
  unstopped (fold_left Cancellation.step actions s).
Proof.
  intros Hs Hactions. revert s Hs.
  induction Hactions as [|a actions Ha _ IH]; intros s Hs; [done|].
  simpl. apply IH. by apply unstopped_step.
Qed.

Lemma unstopped_completionLast (s : Cancellation.System) :
  unstopped s -> Cancellation.completionLast (Cancellation.sent s).
Proof.
  intros [_ Hrun]. destruct (Cancellation.run s).
  - rewrite Hrun. by intros [|??] ?.
  - apply completionLast_absent, Hrun.
  - done.
Qed.

(** X25.  A run that no stop request reaches sends nothing after its completion
    message, and it sends the message once at most: whatever the run finds
    and whenever it resumes. *)
Theorem unstopped_run_completes_last (validPage : bool) (actions : list Cancellation.Action) :
  Forall unrequested actions ->
  Cancellation.completionLast
    (Cancellation.sent (Cancellation.exec (Cancellation.startRequest validPage :: actions))).
Proof.
  intros Hactions. apply unstopped_completionLast.
  unfold Cancellation.exec. simpl fold_left. apply unstopped_exec; [|done].
  destruct validPage; simpl.
  - split; [done|]. split; [done|].
    by intros [?|[?|?%elem_of_nil]%elem_of_cons]%elem_of_cons.
  - split; [done|]. apply completionLast_absent.
    by intros [?|[?|?%elem_of_nil]%elem_of_cons]%elem_of_cons.
Qed.

Lemma unstopped_run_completes_last_witness :
  Cancellation.completionLast
    (Cancellation.sent
       (Cancellation.exec (Cancellation.startRequest true :: UnstoppedScenario.onePass))).
Proof.
  apply (unstopped_run_completes_last true UnstoppedScenario.onePass).
  repeat constructor.
Defined.

(** ** The same checks in other files *)

(** X26.  The hash of the selector utilities is the hash of the scraper on every
    string: the guard for an empty content returns what the loop would. *)
Theorem generateHash_simpleHash (content : string) :
  generateHash content = simpleHash content.
Proof. by destruct content. Qed.

(** X27.  The popup accepts the address of a tab exactly when the content script
    accepts it as the address of its page; a tab without an address is
    refused. *)
Theorem popup_isXProfilePage_agrees (url : option string) :
  Popup.isXProfilePage url = true <-> exists u, url = Some u /\ isXProfilePage u = true.
Proof.
  destruct url as [u|]; simpl.
  - destruct u as [|c u]; simpl.
    + split; [done|]. by intros (u & [= <-] & Hu).
    + split; [eauto|]. by intros (u' & [= <-] & Hu).
  - split; [done|]. by intros (u & Hu & _).
Qed.


(** ** The messages of a run, in order *)

Lemma grows_refl (a : list Post * Z) : grows a a.
Proof. split; [done|lia]. Qed.








(** ** Delays *)

Lemma delayFrom_resolves (ms : Z) (active : nat -> bool) (calls n : nat) :
  ms <= (Z.of_nat n + Z.of_nat calls) * checkInterval ->
  (forall k, (1 <= k < n)%nat -> active k = true /\ Z.of_nat k * checkInterval < ms) ->
  exists r,
    delayFrom (S calls) ms active n = Some r /\ (n <= r)%nat /\
    (active r = false \/ ms <= Z.of_nat r * checkInterval) /\
    forall k, (1 <= k < r)%nat -> active k = true /\ Z.of_nat k * checkInterval < ms.
Proof.
  revert n. induction calls as [|calls IH]; intros n Hcalls Hbefore.
  - exists n. simpl. destruct (active n) eqn:Hn; simpl.
    + destruct (Z.leb_spec ms (Z.of_nat n * checkInterval)); [|lia].
      split; [done|]. split; [lia|]. split; [by right|done].
    + split; [done|]. split; [lia|]. split; [by left|done].
  - cbn [delayFrom]. destruct (active n) eqn:Hn; cbn [negb].
    + destruct (Z.leb_spec ms (Z.of_nat n * checkInterval)) as [|Hearly].
      * exists n. split; [done|]. split; [lia|]. split; [by right|done].
      * destruct (IH (S n)) as (r & Hr & Hle & Hat & Hall); [lia| |].
        { intros k Hk. destruct (decide (k = n)) as [->|]; [done|]. apply Hbefore. lia. }
        exists r. split; [done|]. split; [lia|done].
    + exists n. split; [done|]. split; [lia|]. split; [by left|done].
Qed.

(** X29.  [delay(ms)] always resolves, and at the first call of its 100 ms
    interval that finds the flag cleared or the time elapsed: never before
    the first call, so a delay of 0 ms or one under a cleared flag still
    takes 100 ms, and at most one interval after [ms]. *)
Theorem delay_resolves (ms : Z) (active : nat -> bool) :
  exists r,
    delay ms active = Some r /\ (1 <= r)%nat /\
    (active r = false \/ ms <= Z.of_nat r * checkInterval) /\
    (forall k, (1 <= k < r)%nat -> active k = true /\ Z.of_nat k * checkInterval < ms) /\
    Z.of_nat r * checkInterval < Z.max ms 0 + 2 * checkInterval.
Proof.
  unfold delay.
  destruct (delayFrom_resolves ms active (Z.to_nat (ms / checkInterval)) 1)
    as (r & Hr & Hle & Hat & Hall).
  - unfold checkInterval.
    assert (ms < (ms / 100 + 1) * 100) as Hdiv by (Z.div_mod_to_equations; lia).
    lia.
  - intros k Hk. lia.
  - exists r. split; [done|]. split; [done|]. split; [done|]. split; [done|].
    destruct (decide (r = 1%nat)) as [->|Hne]; [unfold checkInterval; lia|].
    destruct (Hall (pred r)) as [_ Hlate]; [lia|]. unfold checkInterval in *. lia.
Qed.
